(** * combine_src.py: merging a source tree into a single C file

    A shallow embedding of [util/combine_src.py] and the properties of
    its merge engine: origin-tracking emission, recursive flattening of
    internal headers, ordering of the remaining files and the handling
    of include directives.

    Conventions of the embedding.
    - Python byte strings are [string] (a list of 8-bit characters);
      integers are [Z].
    - The closure variables of [createCombined] ([res], [emit_state],
      [processed]) form the record [state]; the nested functions [emit]
      and [processHeader] are computations of a state-and-exception
      monad [M].  As in Python, what a call mutated before it raised
      stays mutated.
    - [processed] is a dict whose values are all [True] and that is only
      queried with [has_key]: it is a finite set of names.
    - The recursion of [processHeader] is bounded by a [fuel] argument
      that counts the nesting depth of calls; [processHeader_fuel_enough]
      shows that the depth never exceeds the number of loaded files plus
      one, so that the bound chosen in [createCombined] is never hit.
      The recursion limit of the Python interpreter is not modelled: the
      embedding follows a chain of nested headers to any depth, where
      the interpreter raises [RuntimeError] at some depth (about a
      thousand calls by default).  The results about runs that return
      hold for the runs of the interpreter that return.
    - Standard output (the progress messages) is not modelled; reading a
      file always succeeds. *)

From Stdlib Require Import ZArith Ascii.
From stdpp Require Import base strings gmap sorting pretty.

Local Open Scope Z_scope.
#[local] Set Warnings "-clear-no-such-hyp".

(** ** Characters and string helpers *)

Definition dquote : ascii := "034"%char.
Definition newline : ascii := "010"%char.
Definition q : string := String dquote "".

(** [s.startswith(p)], returning the remainder of [s]. *)
Fixpoint strip_prefix (p s : string) : option string :=
  match p, s with
  | EmptyString, _ => Some s
  | String a p', String b s' =>
      if decide (a = b) then strip_prefix p' s' else None
  | String _ _, EmptyString => None
  end.

Definition startswith (s p : string) : bool :=
  match strip_prefix p s with Some _ => true | None => false end.

(** The tail [.*$] of both patterns: [.] matches anything but a newline
    and [$] matches at the end of the string or just before a newline
    that ends the string. *)
Fixpoint dotstar_eol (s : string) : bool :=
  match s with
  | EmptyString => true
  | String a s' =>
      if decide (a = newline)
      then (if s' is EmptyString then true else false)
      else dotstar_eol s'
  end.

(** The lazy group [(.*?)c] followed by the rest [k] of the pattern: the
    shortest newline-free prefix followed by [c] after which [k] accepts;
    longer prefixes are tried when [k] rejects (backtracking). *)
Fixpoint lazy_until (c : ascii) (k : string → bool) (s : string)
  : option string :=
  match s with
  | EmptyString => None
  | String a s' =>
      if bool_decide (a = c) && k s' then Some EmptyString
      else if decide (a = newline) then None
      else String a <$> lazy_until c k s'
  end.

(** [re_extinc = re.compile(r'^#include <(.*?)>.*$')]; the result is
    [m.group(1)] of [re_extinc.match(data)]. *)
Definition re_extinc (data : string) : option string :=
  rest ← strip_prefix "#include <" data;
  lazy_until ">"%char dotstar_eol rest.

(** [re_intinc = re.compile(r'^#include \"(duk.*?)\".*$')]. *)
Definition re_intinc (data : string) : option string :=
  rest ← strip_prefix ("#include " +:+ q +:+ "duk") data;
  tl ← lazy_until dquote dotstar_eol rest;
  Some ("duk" +:+ tl).

(** The directive [#include "name"], for the example trees. *)
Definition include_quoted (name : string) : string :=
  "#include " +:+ q +:+ name +:+ q.

(** ** Data model *)

(** [class Line]: [filename] is the base name of the file the line was
    read from.  [filename_full] is stored by the constructors and never
    read afterwards; the embedding leaves it out. *)
Record Line := mkLine {
  line_filename : string;
  lineno : Z;
  data : string
}.

(** [class File]. *)
Record File := mkFile {
  filename : string;
  lines : list Line
}.

Global Instance Line_eq_dec : EqDecision Line.
Proof. solve_decision. Defined.

Global Instance File_eq_dec : EqDecision File.
Proof. solve_decision. Defined.

(** What Python's iteration over a file opened in binary mode yields:
    the content cut after every newline, the newline kept. *)
Fixpoint iter_lines (content : string) : list string :=
  match content with
  | EmptyString => []
  | String a s' =>
      if decide (a = newline) then String a EmptyString :: iter_lines s'
      else match iter_lines s' with
           | [] => [String a EmptyString]
           | l :: ls => String a l :: ls
           end
  end.

(** [line[:-1]] when [line[-1] == '\n']. *)
Fixpoint chomp (line : string) : string :=
  match line with
  | EmptyString => EmptyString
  | String a EmptyString =>
      if decide (a = newline) then EmptyString else line
  | String a s' => String a (chomp s')
  end.

(** The loop of [read]: [lineno] is the counter before the line. *)
Fixpoint read_lines (fname : string) (lineno : Z) (raw : list string)
  : list Line :=
  match raw with
  | [] => []
  | line :: raw' =>
      let lineno := lineno + 1 in
      mkLine fname lineno (chomp line) :: read_lines fname lineno raw'
  end.

(** [read(filename)]; [content] is what the file holds.  The caller
    passes [os.path.join(dir, fn)] for an entry [fn] of the directory
    listing, whose [os.path.basename] is [fn] again: the embedding
    passes [fn]. *)
Definition read (fname content : string) : File :=
  mkFile fname (read_lines fname 0 (iter_lines content)).

(** [findFile(files, filename)] *)
Fixpoint findFile (files : list File) (name : string) : option File :=
  match files with
  | [] => None
  | i :: files' =>
      if decide (filename i = name) then Some i else findFile files' name
  end.

(** ** Exceptions and the state of [createCombined] *)

Inductive exn :=
| Exception (msg : string)
| AssertionError
| TypeError
| ValueError.

(** [Diverged] is the embedding running out of fuel; it is no Python
    outcome. *)
Inductive outcome (A : Type) :=
| Done (a : A)
| Raised (e : exn)
| Diverged.
Global Arguments Done {A} a.
Global Arguments Raised {A} e.
Global Arguments Diverged {A}.

Record state := mkState {
  res : list string;
  emit_state : option string * option Z;   (* curr_filename, curr_lineno *)
  processed : gset string
}.

Definition M (A : Type) : Type := state → outcome A * state.

Definition ret {A} (a : A) : M A := λ st, (Done a, st).
Definition raise {A} (e : exn) : M A := λ st, (Raised e, st).
Definition bind {A B} (m : M A) (k : A → M B) : M B := λ st,
  match m st with
  | (Done a, st') => k a st'
  | (Raised e, st') => (Raised e, st')
  | (Diverged, st') => (Diverged, st')
  end.

Notation "m ;;; k" := (bind m (λ _, k))
  (at level 100, k at level 200, right associativity).

(** [for x in l: body(x)] *)
Fixpoint for_each {A} (l : list A) (body : A → M unit) : M unit :=
  match l with
  | [] => ret tt
  | x :: l' => body x ;;; for_each l' body
  end.

(** ** The emitter *)

(** The argument of [emit]: a [Line] object or a literal string. *)
Inductive item :=
| ILine (line : Line)
| IStr (s : string).

Global Instance item_eq_dec : EqDecision item.
Proof. solve_decision. Defined.

(** ['#line %d "%s"' % (line.lineno, line.filename)] *)
Definition line_marker (line : Line) : string :=
  "#line " +:+ pretty (lineno line) +:+ " " +:+ q +:+ line_filename line +:+ q.

Definition emit (line : item) : M unit := λ st,
  match line with
  | IStr s =>
      let st1 := mkState (res st ++ [s]) (emit_state st) (processed st) in
      match (emit_state st).2 with
      | Some n =>
          (Done tt,
           mkState (res st1) ((emit_state st).1, Some (n + 1)) (processed st))
      | None => (Raised TypeError, st1)    (* None += 1 *)
      end
  | ILine l =>
      let res1 :=
        if decide (Some (line_filename l) ≠ (emit_state st).1
                   ∨ Some (lineno l) ≠ (emit_state st).2)
        then res st ++ [line_marker l]
        else res st in
      (Done tt,
       mkState (res1 ++ [data l])
               (Some (line_filename l), Some (lineno l + 1))
               (processed st))
  end.

(** ** The header expander *)

(** [processed[name] = True] *)
Definition mark_processed (name : string) : M unit := λ st,
  (Done tt, mkState (res st) (emit_state st) ({[ name ]} ∪ processed st)).

Definition already_included (name : string) : string :=
  "/* already included: " +:+ name +:+ " */".

Definition include_removed (name : string) : string :=
  "/* include removed: " +:+ name +:+ " */".

(** Headers that stay as literal include directives. *)
Definition kept_headers : list string := ["duktape.h"; "duk_custom.h"].

(** The body of the loop of [processHeader] for one line; [rec] is the
    recursive call [processHeader(f_inc)]. *)
Definition header_line (files : list File) (rec : File → M unit)
    (line : Line) : M unit :=
  match re_intinc (data line) with
  | None => emit (ILine line)
  | Some incname =>
      if decide (incname ∈ kept_headers) then emit (ILine line)
      else
        match findFile files incname with
        | None => raise AssertionError
        | Some f_inc => λ st,
            if decide (filename f_inc ∈ processed st)
            then emit (IStr (already_included (filename f_inc))) st
            else (mark_processed (filename f_inc) ;;; rec f_inc) st
        end
  end.

(** [processHeader(f_hdr)]; [fuel] bounds the depth of nested calls.  The
    interpreter's own bound on the depth, past which it raises
    [RuntimeError], is not part of the embedding. *)
Fixpoint processHeader (fuel : nat) (files : list File) (f_hdr : File)
  : M unit :=
  match fuel with
  | O => λ st, (Diverged, st)
  | S fuel' =>
      for_each (lines f_hdr) (header_line files (processHeader fuel' files))
  end.

(** ** File names *)

(** [p.rfind('.')] *)
Fixpoint rfind_dot (p : string) : option nat :=
  match p with
  | EmptyString => None
  | String a p' =>
      match rfind_dot p' with
      | Some i => Some (S i)
      | None => if decide (a = "."%char) then Some O else None
      end
  end.

Fixpoint only_dots (p : string) : bool :=
  match p with
  | EmptyString => true
  | String a p' => bool_decide (a = "."%char) && only_dots p'
  end.

(** [os.path.splitext(p)[1]] for a name [p] without directory part: the
    text from the last dot on, unless only dots precede it. *)
Definition splitext_ext (p : string) : string :=
  match rfind_dot p with
  | Some dotIndex =>
      if only_dots (String.substring 0 dotIndex p) then EmptyString
      else String.substring dotIndex (String.length p - dotIndex) p
  | None => EmptyString
  end.

(** ** [createCombined] *)

(** [line.strip()] *)
Fixpoint lstrip (s : string) : string :=
  match s with
  | EmptyString => EmptyString
  | String a s' => if Ascii.is_space a then lstrip s' else s
  end.

Definition strip (s : string) : string :=
  String.rev (lstrip (String.rev (lstrip s))).

(** ['\n'.join(res)] *)
Fixpoint join_lines (l : list string) : string :=
  match l with
  | [] => EmptyString
  | [x] => x
  | x :: l' => x +:+ String newline (join_lines l')
  end.

(** The lines appended to [res] before anything is emitted. *)
Definition banner (duk_version : Z)
    (git_commit git_describe license_text authors_text : string)
  : list string :=
  let duk_major := duk_version `div` 10000 in
  let duk_minor := (duk_version `div` 100) `mod` 100 in
  let duk_patch := duk_version `mod` 100 in
  [ "/*";
    " *  Single file autogenerated distributable for Duktape "
      +:+ pretty duk_major +:+ "." +:+ pretty duk_minor +:+ "."
      +:+ pretty duk_patch +:+ ".";
    " *  Git commit " +:+ git_commit +:+ " (" +:+ git_describe +:+ ").";
    " *";
    " *  See Duktape AUTHORS.rst and LICENSE.txt for copyright and";
    " *  licensing information.";
    " */";
    "";
    "/* LICENSE.txt */" ]
  ++ (strip <$> iter_lines license_text)
  ++ [ "/* AUTHORS.rst */" ]
  ++ (strip <$> iter_lines authors_text).

(** "Mark all internal headers processed" *)
Definition mark_headers (files : list File) : M unit :=
  for_each files (λ f,
    if decide (splitext_ext (filename f) ≠ ".h") then ret tt
    else mark_processed (filename f)).

(** The body of the loop over the lines of a remaining file. *)
Definition body_line (line : Line) : M unit :=
  match re_intinc (data line) with
  | None => emit (ILine line)
  | Some incname => emit (IStr (include_removed incname))
  end.

(** "Then emit remaining files" *)
Definition emit_remaining (files : list File) : M unit :=
  for_each files (λ f st,
    if decide (filename f ∈ processed st) then (Done tt, st)
    else for_each (lines f) body_line st).

(** The part of [createCombined] after the banner. *)
Definition combine (fuel : nat) (files : list File) : M unit := λ st,
  match findFile files "duk_internal.h" with
  | None => (Raised AssertionError, st)
  | Some f_dukint =>
      (processHeader fuel files f_dukint ;;;
       mark_headers files ;;;
       emit_remaining files) st
  end.

(** [createCombined]; [extinc] and [intinc] are passed by [main] and
    not used.  [license_text] and [authors_text] are the contents of
    [license_file] and [authors_file]. *)
Definition createCombined (files : list File) (extinc intinc : list string)
    (duk_version : Z)
    (git_commit git_describe license_text authors_text : string)
  : outcome string :=
  let st0 :=
    mkState
      (banner duk_version git_commit git_describe license_text authors_text)
      (None, None) ∅ in
  match combine (S (length files)) files st0 with
  | (Done _, st) => Done (join_lines (res st) +:+ String newline EmptyString)
  | (Raised e, _) => Raised e
  | (Diverged, _) => Diverged
  end.

(** ** [main] *)

Definition outcome_bind {A B} (o : outcome A) (k : A → outcome B)
  : outcome B :=
  match o with
  | Done a => k a
  | Raised e => Raised e
  | Diverged => Diverged
  end.

Definition handpick : list string :=
  [ "duk_strings.c"; "duk_debug_macros.c"; "duk_builtins.c";
    "duk_error_macros.c"; "duk_unicode_support.c"; "duk_util_misc.c";
    "duk_util_hashprime.c"; "duk_hobject_class.c" ].

(** [filelist.index(fn)] *)
Fixpoint index (filelist : list string) (fn : string) : option nat :=
  match filelist with
  | [] => None
  | x :: filelist' =>
      if decide (x = fn) then Some O else S <$> index filelist' fn
  end.

(** [idx = filelist.index(fn); filelist.insert(0, filelist.pop(idx))] *)
Definition move_to_front (filelist : list string) (fn : string)
  : outcome (list string) :=
  match index filelist fn with
  | None => Raised ValueError
  | Some idx => Done (filelist !!! idx :: delete idx filelist)
  end.

Fixpoint move_all (filelist : list string) (names : list string)
  : outcome (list string) :=
  match names with
  | [] => Done filelist
  | fn :: names' =>
      outcome_bind (move_to_front filelist fn) (λ fl, move_all fl names')
  end.

(** The order in which [main] reads the files: the sorted listing with
    the names of [priority] moved to the front, last name first. *)
Definition order_filelist (priority listing : list string)
  : outcome (list string) :=
  move_all (merge_sort String.le listing) (reverse priority).

(** The files [main] reads, in order; [fs fn] is the content of the
    entry [fn] of the source directory. *)
Definition load (priority listing : list string) (fs : string → string)
  : outcome (list File) :=
  outcome_bind (order_filelist priority listing) (λ filelist,
    Done ((λ fn, read fn (fs fn))
            <$> filter (λ fn, splitext_ext fn ∈ [".c"; ".h"]) filelist)).

(** The loop of [processIncludes] over the remaining lines [ls]. *)
Fixpoint processIncludes_lines (ls : list Line) (extinc intinc : list string)
  : outcome (list string * list string) :=
  match ls with
  | [] => Done (extinc, intinc)
  | line :: ls' =>
      if negb (startswith (data line) "#include")
      then processIncludes_lines ls' extinc intinc
      else
        match re_extinc (data line) with
        | Some name => processIncludes_lines ls' (extinc ++ [name]) intinc
        | None =>
            match re_intinc (data line) with
            | Some name => processIncludes_lines ls' extinc (intinc ++ [name])
            | None => Raised (Exception "cannot parse include directive")
            end
        end
  end.

Definition processIncludes (f : File) : outcome (list string * list string) :=
  processIncludes_lines (lines f) [] [].

(** [data[n:]] *)
Fixpoint drop_chars (n : nat) (s : string) : string :=
  match n, s with
  | O, _ => s
  | S n', String _ s' => drop_chars n' s'
  | S _, EmptyString => EmptyString
  end.

(** The body of the loop of [processDeclarations]: the new value of the
    line, whose [data] the code assigns in place. *)
Definition declare_line (line : Line) : Line :=
  if startswith (data line) "int " || startswith (data line) "void "
  then mkLine (line_filename line) (lineno line) ("static " +:+ data line)
  else if startswith (data line) "extern int"
          || startswith (data line) "extern void "
  then mkLine (line_filename line) (lineno line)
         ("static " +:+ drop_chars 7 (data line))
  else line.

(** [processDeclarations(f)]: the file after the pass ([main] has the
    call commented out). *)
Definition processDeclarations (f : File) : File :=
  mkFile (filename f) (declare_line <$> lines f).

(** [for i in new: if i in acc: continue; acc.append(i)] *)
Fixpoint add_new (acc new : list string) : list string :=
  match new with
  | [] => acc
  | i :: new' =>
      if decide (i ∈ acc) then add_new acc new' else add_new (acc ++ [i]) new'
  end.

(** "Process #include statements" *)
Fixpoint process_all (files : list File) (extinc intinc : list string)
  : outcome (list string * list string) :=
  match files with
  | [] => Done (extinc, intinc)
  | f :: files' =>
      outcome_bind (processIncludes f) (λ '(extnew, intnew),
        process_all files' (add_new extinc extnew) (add_new intinc intnew))
  end.

(** [main] from the directory listing on; when it returns [Done final],
    [final] is what is written to the output file, and otherwise the
    file is never opened.  [listing] is the result of [os.listdir], in
    whatever order the system gives it. *)
Definition main_from (priority listing : list string) (fs : string → string)
    (duk_version : Z)
    (git_commit git_describe license_text authors_text : string)
  : outcome string :=
  outcome_bind (load priority listing fs) (λ files,
  outcome_bind (process_all files [] []) (λ '(extinc, intinc),
    createCombined files extinc intinc duk_version git_commit git_describe
      license_text authors_text)).

Definition main := main_from handpick.

(** * Vocabulary of the statements *)

(** [st] with the processed set replaced by [P]. *)
Definition set_processed (P : gset string) (st : state) : state :=
  mkState (res st) (emit_state st) P.

(** A line that begins with the include marker and has neither of the
    two recognised forms. *)
Definition unparsable (d : string) : Prop :=
  startswith d "#include" = true ∧ re_extinc d = None ∧ re_intinc d = None.

(** The exception of [processIncludes]. *)
Definition parse_error : exn := Exception "cannot parse include directive".

(** The names of the loaded files. *)
Definition file_names (files : list File) : gset string :=
  list_to_set (filename <$> files).

(** The number of loaded files that are not marked yet. *)
Definition unprocessed (files : list File) (st : state) : nat :=
  size (file_names files ∖ processed st).

(** The name a line of a header makes the expander resolve: the line is
    an internal include and the name is not one of the kept ones. *)
Definition flattens (line : Line) : option string :=
  match re_intinc (data line) with
  | Some incname =>
      if decide (incname ∈ kept_headers) then None else Some incname
  | None => None
  end.

(** The lines of a header that are emitted as they are. *)
Definition content (ls : list Line) : list Line :=
  filter (λ l, flattens l = None) ls.

(** The lines of the file that [findFile] gives for a name. *)
Definition lines_of (files : list File) (name : string) : list Line :=
  match findFile files name with
  | Some f => lines f
  | None => []
  end.

(** Its content lines. *)
Definition content_of (files : list File) (name : string) : list Line :=
  content (lines_of files name).

(** The arguments of the calls of [emit] and the names of the headers
    that were flattened, both in order. *)
Definition trace : Type := list item * list string.

(** [header_line] without the emitter: the trace of one line, from the
    set [P] of processed names; [rec] gives the trace of an included
    file. *)
Definition expansion_line (files : list File)
    (rec : File → gset string → option trace)
    (line : Line) (P : gset string) : option trace :=
  match re_intinc (data line) with
  | None => Some ([ILine line], [])
  | Some incname =>
      if decide (incname ∈ kept_headers) then Some ([ILine line], [])
      else
        match findFile files incname with
        | None => None
        | Some f_inc =>
            if decide (filename f_inc ∈ P)
            then Some ([IStr (already_included (filename f_inc))], [])
            else
              '(evs, ord) ← rec f_inc ({[ filename f_inc ]} ∪ P);
              Some (evs, filename f_inc :: ord)
        end
  end.

(** The loop over the lines: the traces of the lines, one after the
    other, each started with what the lines before it marked. *)
Fixpoint expansion_lines (step : Line → gset string → option trace)
    (ls : list Line) (P : gset string) : option trace :=
  match ls with
  | [] => Some ([], [])
  | line :: ls' =>
      '(evs1, ord1) ← step line P;
      '(evs2, ord2) ← expansion_lines step ls' (list_to_set ord1 ∪ P);
      Some (evs1 ++ evs2, ord1 ++ ord2)
  end.

(** The trace of [processHeader(f_hdr)] when it returns. *)
Fixpoint expansion (fuel : nat) (files : list File) (f_hdr : File)
    (P : gset string) : option trace :=
  match fuel with
  | O => None
  | S fuel' =>
      expansion_lines (expansion_line files (expansion fuel' files))
        (lines f_hdr) P
  end.

(** The [Line] objects among the arguments of [emit]. *)
Definition emitted_lines (evs : list item) : list Line :=
  omap (λ i, match i with ILine l => Some l | IStr _ => None end) evs.

(** The number of placeholder comments for the header [h]. *)
Definition placeholders (h : string) (evs : list item) : nat :=
  length (filter (λ i, i = IStr (already_included h)) evs).

(** The number of lines that include the header [h]. *)
Definition includes_of (h : string) (ls : list Line) : nat :=
  length (filter (λ l, flattens l = Some h) ls).

(** What a trace [t] of the lines [ls], started with the processed names
    [P], has to satisfy. *)
Definition trace_ok (files : list File) (ls : list Line) (P : gset string)
    (t : trace) : Prop :=
  NoDup (snd t) ∧
  (∀ h, h ∈ snd t → (h ∉ P) ∧ is_Some (findFile files h)) ∧
  emitted_lines (fst t) ≡ₚ content ls ++ (snd t ≫= content_of files) ∧
  (∀ h, (placeholders h (fst t) + length (filter (eq h) (snd t))
         = includes_of h (ls ++ (snd t ≫= lines_of files)))%nat) ∧
  (∀ h, IStr (already_included h) ∈ fst t → h ∈ P ∨ h ∈ snd t) ∧
  (∀ s, IStr s ∈ fst t → ∃ h, s = already_included h).

(** What [read] guarantees for every loaded file: its lines are pairwise
    different and carry the name of the file. *)
Definition wf_files (files : list File) : Prop :=
  Forall (λ f, NoDup (lines f) ∧
               Forall (λ l, line_filename l = filename f) (lines f)) files.


(** A file with the given lines, each ended by a newline. *)
Definition text (ls : list string) : string :=
  fold_right (λ l acc, l +:+ String newline acc) EmptyString ls.

(** The root includes [duk_a.h] twice. *)
Definition twice_fs (fn : string) : string :=
  if decide (fn = "duk_internal.h")
  then text ["int r;"; include_quoted "duk_a.h"; include_quoted "duk_a.h"]
  else if decide (fn = "duk_a.h") then text ["int a;"]
  else EmptyString.

(** The root includes [duk_a.h], which includes the root. *)
Definition cyclic_fs (fn : string) : string :=
  if decide (fn = "duk_internal.h")
  then text ["int r;"; include_quoted "duk_a.h"]
  else if decide (fn = "duk_a.h")
  then text ["int a;"; include_quoted "duk_internal.h"]
  else EmptyString.


(** The files of the given names, read from [fs]. *)
Definition tree (fs : string → string) (names : list string) : list File :=
  (λ fn, read fn (fs fn)) <$> names.

(** The state before anything is appended. *)
Definition st_empty : state := mkState [] (None, None) ∅.

(** Emitting a list of [Line] objects; this never fails. *)
Definition emit_lines (ls : list Line) (st : state) : state :=
  (for_each (ILine <$> ls) emit st).2.

(** Lines that the expander passes on as they are. *)
Definition plain (ls : list Line) : Prop :=
  Forall (λ l, flattens l = None) ls.

(** The tree of the scenario: the root includes [duk_b.h] and then
    [duk_c.h], which includes [duk_b.h] as well. *)
Definition diamond_fs (fn : string) : string :=
  if decide (fn = "duk_internal.h")
  then text ["int a1;"; include_quoted "duk_b.h"; include_quoted "duk_c.h";
             "int a2;"]
  else if decide (fn = "duk_b.h") then text ["int b;"]
  else if decide (fn = "duk_c.h") then text [include_quoted "duk_b.h"; "int c;"]
  else EmptyString.

(** The number of lines of the output that are the text [d]. *)
Definition count_text (d : string) (out : list string) : nat :=
  length (filter (eq d) out).

(** The number of [Line] objects whose text is [d]. *)
Definition directives (d : string) (ls : list Line) : nat :=
  length (filter (λ l, data l = d) ls).

(** The names of the loaded files with the extension of a header. *)
Definition header_names (files : list File) : gset string :=
  list_to_set (filename <$> filter (λ f, splitext_ext (filename f) = ".h") files).

(** What the last loop gives to [emit] for a line. *)
Definition body_item (line : Line) : item :=
  match re_intinc (data line) with
  | None => ILine line
  | Some incname => IStr (include_removed incname)
  end.

(** The root and a header that nothing includes both include
    [stdio.h]. *)
Definition unused_fs (fn : string) : string :=
  if decide (fn = "duk_internal.h") then text ["#include <stdio.h>"]
  else if decide (fn = "duk_unused.h") then text ["#include <stdio.h>"]
  else EmptyString.

(** A tree with the priority files of [main], an empty root header and a
    first source file that begins with an internal include. *)
Definition stray_fs (fn : string) : string :=
  if decide (fn = "duk_strings.c")
  then text [include_quoted "duk_internal.h"; "int duk_strings;"]
  else EmptyString.

(** A tree in which every file is one line that names the file. *)
Definition named_fs (fn : string) : string := text ["/* " +:+ fn +:+ " */"].

(** Whether the character [c] is in [s]. *)
Fixpoint occurs (c : ascii) (s : string) : bool :=
  match s with
  | EmptyString => false
  | String a s' => bool_decide (a = c) || occurs c s'
  end.

(** [duk_major], [duk_minor] and [duk_patch] of [createCombined]. *)
Definition version_triple (duk_version : Z) : Z * Z * Z :=
  (duk_version `div` 10000, (duk_version `div` 100) `mod` 100,
   duk_version `mod` 100).

(** The entries of the listing that [main] reads. *)
Definition is_source (fn : string) : Prop := splitext_ext fn ∈ [".c"; ".h"].

(** [res] only grew from [st] to [st']. *)
Definition grows (st st' : state) : Prop :=
  ∃ more, res st' = res st ++ more.

(** The cursor has a line number: a [Line] was emitted before. *)
Definition cursor_set (st : state) : Prop := is_Some (emit_state st).2.

(** The two comments that are emitted as literal strings. *)
Definition comment (s : string) : Prop :=
  ∃ n, s = already_included n ∨ s = include_removed n.

(** The computation [m] raises [TypeError] only as long as no [Line] was
    emitted, and then on the first string it appends; it never unsets
    the cursor. *)
Definition typeerror_first (m : M unit) : Prop :=
  ∀ st,
    (cursor_set st → cursor_set (m st).2 ∧ (m st).1 ≠ Raised TypeError) ∧
    (¬ cursor_set st →
     ((m st).1 = Done tt → ¬ cursor_set (m st).2 → res (m st).2 = res st) ∧
     ((m st).1 = Raised TypeError →
      ∃ s, comment s ∧ res (m st).2 = res st ++ [s])).

(** * Properties *)

(** ** The monad *)

Lemma for_each_app {A} (l1 l2 : list A) (body : A → M unit) (st : state) :
  for_each (l1 ++ l2) body st = (for_each l1 body ;;; for_each l2 body) st.
Proof.
  revert st. induction l1 as [|x l1 IH]; intros st; simpl.
  - reflexivity.
  - unfold bind in *. destruct (body x st) as [[[]| |] st1]; auto.
Qed.

(** ** The emitter *)

Lemma emit_processed (line : item) (st : state) :
  processed (emit line st).2 = processed st.
Proof. destruct line; simpl; [done|]. by destruct (emit_state st).2. Qed.

(** [emit] neither reads nor writes [processed]. *)
Lemma emit_set_processed (line : item) (P : gset string) (st : state) :
  emit line (set_processed P st)
  = ((emit line st).1, set_processed P (emit line st).2).
Proof. destruct line; simpl; [done|]. by destruct (emit_state st).2. Qed.

(** C10. Emitting a literal string appends that string to [res], leaves
    the file name of the cursor as it is and adds one to its line number
    (when the line number is still unset, the addition raises and the
    cursor stays as it is); emitting a [Line] of origin [(name, n)]
    always succeeds and sets the cursor to [(name, n + 1)], with or
    without a marker; [processed] is untouched and [res] only grows, by
    one line or by two. *)
Theorem emit_frame (line : item) (st : state) :
  let st' := (emit line st).2 in
  processed st' = processed st ∧
  match line with
  | IStr s =>
      res st' = res st ++ [s] ∧
      (emit_state st').1 = (emit_state st).1 ∧
      match (emit_state st).2 with
      | Some n =>
          (emit line st).1 = Done tt ∧ (emit_state st').2 = Some (n + 1)
      | None =>
          (emit line st).1 = Raised TypeError ∧ (emit_state st').2 = None
      end
  | ILine l =>
      (emit line st).1 = Done tt ∧
      emit_state st' = (Some (line_filename l), Some (lineno l + 1)) ∧
      (res st' = res st ++ [data l] ∨
       res st' = res st ++ [line_marker l; data l])
  end.
Proof.
  split; [apply emit_processed|].
  destruct line as [l|s]; simpl.
  - split; [done|]. split; [done|].
    case_decide; [right|left]; [|done]. by rewrite <- app_assoc.
  - destruct (emit_state st) as [fn [n|]]; simpl; auto.
Qed.

(** The cursor after a [Line] and [k] literal strings. *)
Lemma emit_strings_cursor (syn : list string) (st : state) (n : Z) :
  (emit_state st).2 = Some n →
  for_each (IStr <$> syn) emit st
  = (Done tt,
     mkState (res st ++ syn)
             ((emit_state st).1, Some (n + Z.of_nat (length syn)))
             (processed st)).
Proof.
  revert st n. induction syn as [|s syn IH]; intros st n Hn; simpl.
  - unfold ret. destruct st as [r [fn ln] P]; simpl in *. subst.
    rewrite app_nil_r. do 4 f_equal. lia.
  - unfold bind; simpl. rewrite Hn.
    erewrite IH by reflexivity. simpl.
    rewrite <- app_assoc. simpl. do 4 f_equal. lia.
Qed.

(** C2 (as amended). A marker is emitted immediately before a [Line] if
    and only if the origin of the line differs from the emission cursor.
    The cursor is unset after the banner, so that the first [Line] always
    gets a marker; after a [Line] of origin [(name, n)] followed by [k]
    literal strings it is [(name, n + 1 + k)], so that the line after a
    placeholder comment gets a marker unless it is line [n + 1 + k] of
    the same file. *)
Theorem marker_iff_cursor_differs :
  (∀ (st : state) (l : Line),
     let st' := (emit (ILine l) st).2 in
     (emit_state st ≠ (Some (line_filename l), Some (lineno l)) →
      res st' = res st ++ [line_marker l; data l]) ∧
     (emit_state st = (Some (line_filename l), Some (lineno l)) →
      res st' = res st ++ [data l])) ∧
  (∀ (st : state) (prev : Line) (syn : list string),
     ∃ st', for_each (ILine prev :: (IStr <$> syn)) emit st = (Done tt, st') ∧
       emit_state st'
       = (Some (line_filename prev),
          Some (lineno prev + 1 + Z.of_nat (length syn)))) ∧
  (∀ (st : state) (l : Line),
     emit_state st = (None, None) →
     res (emit (ILine l) st).2 = res st ++ [line_marker l; data l]).
Proof.
  assert (Hmark : ∀ (st : state) (l : Line),
    emit_state st ≠ (Some (line_filename l), Some (lineno l)) →
    res (emit (ILine l) st).2 = res st ++ [line_marker l; data l]).
  { intros st l Hne. simpl. rewrite decide_True.
    - by rewrite <- app_assoc.
    - destruct (emit_state st) as [fn ln]; simpl.
      destruct (decide (Some (line_filename l) = fn)) as [<-|]; [|by left].
      right. intros <-. by apply Hne. }
  split; [|split].
  - intros st l; simpl. split; [apply Hmark|].
    intros ->; simpl. by rewrite decide_False by (intros [?|?]; congruence).
  - intros st prev syn. eexists. split.
    + simpl. unfold bind at 1. simpl. by apply emit_strings_cursor.
    + simpl. do 2 f_equal.
  - intros st l Hst. apply Hmark. by rewrite Hst.
Qed.

Lemma marker_iff_cursor_differs_witness :
  let st := mkState ["int a;"] (Some "duk_a.h", Some 5) ∅ in
  res (emit (ILine (mkLine "duk_b.h" 1 "int b;")) st).2
  = ["int a;"; line_marker (mkLine "duk_b.h" 1 "int b;"); "int b;"] ∧
  res (emit (ILine (mkLine "duk_a.h" 5 "int c;")) st).2 = ["int a;"; "int c;"].
Proof.
  intros st.
  destruct marker_iff_cursor_differs as [H _].
  split.
  - apply (proj1 (H st (mkLine "duk_b.h" 1 "int b;"))). simpl. congruence.
  - apply (proj2 (H st (mkLine "duk_a.h" 5 "int c;"))). reflexivity.
Defined.

(** C2 (as stated) fails: line 6 of [duk_a.h] follows the placeholder
    that replaced line 5, its origin is not the origin of the previously
    emitted [Line] plus one, and yet no marker precedes it. *)
Lemma marker_after_placeholder_counterexample :
  let prev := mkLine "duk_a.h" 4 "int a;" in
  let cur := mkLine "duk_a.h" 6 "int b;" in
  let st0 := mkState [] (None, None) ∅ in
  let st :=
    (for_each [ILine prev; IStr (already_included "duk_b.h")] emit st0).2 in
  (line_filename cur, lineno cur) ≠ (line_filename prev, lineno prev + 1) ∧
  last (res st) = Some (already_included "duk_b.h") ∧
  emit (ILine cur) st
  = (Done tt, mkState (res st ++ [data cur]) (Some "duk_a.h", Some 7) ∅).
Proof. vm_compute. split; [congruence|]. split; reflexivity. Qed.

(** ** The order of the files *)

Lemma filter_all {A} (P : A → Prop) `{∀ x, Decision (P x)} (l : list A) :
  (∀ x, x ∈ l → P x) → filter P l = l.
Proof.
  induction l as [|x l IH]; intros HP; [done|].
  rewrite filter_cons_True by (apply HP; left).
  f_equal. apply IH. intros y Hy. apply HP. by right.
Qed.


Lemma StronglySorted_filter {A} (R : relation A) (P : A → Prop)
    `{∀ x, Decision (P x)} (l : list A) :
  StronglySorted R l → StronglySorted R (filter P l).
Proof.
  induction 1 as [|x l Hl IH Hx]; [constructor|].
  rewrite filter_cons. case_decide; [|done].
  constructor; [done|].
  apply Forall_forall. intros y [_ Hy]%list_elem_of_filter.
  by eapply Forall_forall in Hx.
Qed.

Lemma index_None (filelist : list string) (fn : string) :
  index filelist fn = None ↔ fn ∉ filelist.
Proof.
  induction filelist as [|x l IH]; simpl.
  - split; [intros _; apply not_elem_of_nil|done].
  - case_decide as Hx.
    + subst. split; [done|]. intros []. left.
    + destruct (index l fn) eqn:Hi; simpl.
      * split; [done|]. intros Hn. exfalso.
        assert (fn ∉ l) as Hl by (intros ?; apply Hn; by right).
        apply IH in Hl. done.
      * split; [|done]. intros _ [->|?]%elem_of_cons; [done|].
        by apply IH.
Qed.

Lemma index_Some (filelist : list string) (fn : string) (idx : nat) :
  index filelist fn = Some idx →
  filelist !! idx = Some fn ∧
  (NoDup filelist → delete idx filelist = filter (λ x, x ≠ fn) filelist).
Proof.
  revert idx. induction filelist as [|x l IH]; intros idx; simpl; [done|].
  case_decide as Hx.
  - intros [= <-]. subst. split; [done|]. intros [Hn _]%NoDup_cons.
    simpl. rewrite filter_cons_False by (intros ?; done).
    symmetry. apply filter_all. by intros y Hy ->.
  - destruct (index l fn) as [i|] eqn:Hi; simpl; [|done].
    intros [= <-]. destruct (IH i eq_refl) as [Hl Hd]. split; [done|].
    intros [_ Hnd]%NoDup_cons. simpl.
    rewrite filter_cons_True by done. f_equal. by apply Hd.
Qed.

Lemma move_to_front_spec (filelist : list string) (fn : string) :
  NoDup filelist → fn ∈ filelist →
  move_to_front filelist fn = Done (fn :: filter (λ x, x ≠ fn) filelist).
Proof.
  intros Hnd Hin. unfold move_to_front.
  destruct (index filelist fn) as [idx|] eqn:Hi.
  - destruct (index_Some _ _ _ Hi) as [Hl Hd].
    rewrite (list_lookup_total_correct _ _ _ Hl). by rewrite Hd.
  - by apply index_None in Hi.
Qed.

Lemma move_to_front_missing (filelist : list string) (fn : string) :
  fn ∉ filelist → move_to_front filelist fn = Raised ValueError.
Proof. intros Hn%index_None. unfold move_to_front. by rewrite Hn. Qed.

Lemma move_all_spec (names filelist : list string) :
  NoDup filelist → NoDup names → names ⊆ filelist →
  move_all filelist names
  = Done (reverse names ++ filter (λ x, x ∉ names) filelist).
Proof.
  revert filelist. induction names as [|fn names IH]; intros fl Hfl Hn Hsub.
  - simpl. f_equal. symmetry. apply filter_all.
    intros x _. apply not_elem_of_nil.
  - apply NoDup_cons in Hn as [Hfn Hn]. simpl.
    rewrite move_to_front_spec; [|done|apply Hsub; left]. simpl.
    rewrite IH; [|constructor; [|by apply NoDup_filter]|done|].
    + f_equal. rewrite reverse_cons, <- app_assoc. f_equal. simpl.
      rewrite filter_cons_True by done. f_equal.
      rewrite list_filter_filter. apply list_filter_iff.
      intros x. rewrite elem_of_cons. tauto.
    + rewrite list_elem_of_filter. tauto.
    + intros x Hx. destruct (decide (x = fn)) as [->|Hne]; [left|right].
      apply list_elem_of_filter. split; [done|]. apply Hsub. by right.
Qed.

Lemma merge_sort_perm_eq (l1 l2 : list string) :
  l1 ≡ₚ l2 → merge_sort String.le l1 = merge_sort String.le l2.
Proof.
  intros Hp. apply (StronglySorted_unique String.le).
  - apply (StronglySorted_merge_sort _).
  - apply (StronglySorted_merge_sort _).
  - by rewrite !merge_sort_Permutation.
Qed.

Lemma body_line_processed (line : Line) (st : state) :
  processed (body_line line st).2 = processed st.
Proof. unfold body_line. destruct (re_intinc _); apply emit_processed. Qed.

Lemma for_each_processed {A} (l : list A) (body : A → M unit) (st : state) :
  (∀ x st, processed (body x st).2 = processed st) →
  processed (for_each l body st).2 = processed st.
Proof.
  intros Hb. revert st. induction l as [|x l IH]; intros st; simpl; [done|].
  unfold bind. specialize (Hb x st).
  destruct (body x st) as [[[]| |] st1]; simpl in *; [|done..].
  by rewrite IH.
Qed.

(** The last loop of [createCombined] visits the files in the order of
    [files], leaving out those in [processed]. *)
Lemma emit_remaining_flat (files : list File) (st : state) :
  emit_remaining files st
  = for_each (filter (λ f, filename f ∉ processed st) files ≫= lines)
      body_line st.
Proof.
  unfold emit_remaining. revert st.
  induction files as [|f files IH]; intros st; simpl; [done|].
  unfold bind at 1. case_decide as Hf.
  - rewrite filter_cons_False by (intros ?; done). apply IH.
  - rewrite filter_cons_True by done. simpl.
    rewrite for_each_app. unfold bind.
    pose proof (for_each_processed (lines f) body_line st body_line_processed)
      as HP.
    destruct (for_each (lines f) body_line st) as [[[]| |] st1];
      simpl in *; [|done..].
    rewrite IH, HP. done.
Qed.

(** C3. The output of a run is a function of the contents of the source
    tree and of the banner data only: the order in which the system
    lists the directory does not matter. *)
Theorem main_deterministic (priority listing1 listing2 : list string)
    (fs : string → string) (duk_version : Z)
    (git_commit git_describe license_text authors_text : string) :
  listing1 ≡ₚ listing2 →
  main_from priority listing1 fs duk_version git_commit git_describe
    license_text authors_text
  = main_from priority listing2 fs duk_version git_commit git_describe
      license_text authors_text.
Proof.
  intros Hp. unfold main_from, load, order_filelist.
  by rewrite (merge_sort_perm_eq _ _ Hp).
Qed.

Lemma main_deterministic_witness :
  main_from [] ["duk_internal.h"; "a.c"] (λ _, "int x;") 10203 "c" "d" "l" "a"
  = main_from [] ["a.c"; "duk_internal.h"] (λ _, "int x;") 10203 "c" "d" "l" "a".
Proof. apply main_deterministic. apply perm_swap. Defined.

(** ** The include classifier *)

Lemma processIncludes_lines_outcome (ls : list Line) (extinc intinc : list string) :
  (∃ r, processIncludes_lines ls extinc intinc = Done r) ∨
  processIncludes_lines ls extinc intinc = Raised parse_error.
Proof.
  revert extinc intinc. induction ls as [|l ls IH]; intros e i; simpl.
  - left. by eexists.
  - destruct (startswith _ _); simpl; [|apply IH].
    destruct (re_extinc _); [apply IH|].
    destruct (re_intinc _); [apply IH|]. by right.
Qed.

Lemma processIncludes_lines_raises (ls : list Line) (extinc intinc : list string)
    (line : Line) :
  line ∈ ls → unparsable (data line) →
  processIncludes_lines ls extinc intinc = Raised parse_error.
Proof.
  intros Hin (Hs & He & Hi). revert extinc intinc.
  induction ls as [|l ls IH]; intros e i; [by apply elem_of_nil in Hin|].
  apply elem_of_cons in Hin as [<-|Hin]; simpl.
  - by rewrite Hs, He, Hi.
  - destruct (startswith (data l) _); simpl; [|by apply IH].
    destruct (re_extinc (data l)); [by apply IH|].
    destruct (re_intinc (data l)); [by apply IH|]. done.
Qed.

Lemma process_all_raises (files : list File) (extinc intinc : list string)
    (f : File) (line : Line) :
  f ∈ files → line ∈ lines f → unparsable (data line) →
  process_all files extinc intinc = Raised parse_error.
Proof.
  intros Hf Hl Hu. revert extinc intinc.
  induction files as [|f0 files IH]; intros e i; [by apply elem_of_nil in Hf|].
  simpl. apply elem_of_cons in Hf as [<-|Hf].
  - unfold processIncludes.
    by rewrite (processIncludes_lines_raises _ _ _ line).
  - unfold processIncludes.
    destruct (processIncludes_lines_outcome (lines f0) [] []) as [[[e1 i1] ->]| ->];
      simpl; [by apply IH|done].
Qed.

Lemma move_all_outcome (names filelist : list string) :
  (∃ fl, move_all filelist names = Done fl ∧ fl ≡ₚ filelist) ∨
  move_all filelist names = Raised ValueError.
Proof.
  revert filelist. induction names as [|fn names IH]; intros fl; simpl.
  - left. by eexists.
  - unfold move_to_front. destruct (index fl fn) as [idx|] eqn:Hi; simpl.
    + destruct (index_Some _ _ _ Hi) as [Hl _].
      rewrite (list_lookup_total_correct _ _ _ Hl).
      destruct (IH (fn :: delete idx fl)) as [(fl' & -> & Hp)| ->]; [left|by right].
      eexists; split; [done|]. rewrite Hp. symmetry. by apply delete_Permutation.
    + by right.
Qed.

Lemma load_outcome (priority listing : list string) (fs : string → string) :
  (∃ files, load priority listing fs = Done files ∧
     ∀ fn, fn ∈ listing → splitext_ext fn ∈ [".c"; ".h"] →
           read fn (fs fn) ∈ files) ∨
  load priority listing fs = Raised ValueError.
Proof.
  unfold load, order_filelist.
  destruct (move_all_outcome (reverse priority) (merge_sort String.le listing))
    as [(fl & -> & Hp)| ->]; [left|by right].
  simpl. eexists; split; [done|]. intros fn Hfn Hext.
  apply (list_elem_of_fmap_2 (λ fn, read fn (fs fn))).
  apply list_elem_of_filter. split; [done|].
  by rewrite Hp, merge_sort_Permutation.
Qed.

(** C4. When a file of the source directory with one of the two
    extensions contains a line that begins with the include marker and
    has neither the angle-bracket form nor the quoted form with an
    internal name, the run writes no output file; whenever the files
    were read (the priority files are all there) it ends with the
    exception "cannot parse include directive". *)
Theorem unparsable_include_aborts (priority listing : list string)
    (fs : string → string) (duk_version : Z)
    (git_commit git_describe license_text authors_text : string)
    (fn : string) (line : Line) :
  fn ∈ listing → splitext_ext fn ∈ [".c"; ".h"] →
  line ∈ lines (read fn (fs fn)) → unparsable (data line) →
  let run := main_from priority listing fs duk_version git_commit
               git_describe license_text authors_text in
  (∀ final, run ≠ Done final) ∧
  (∀ files, load priority listing fs = Done files → run = Raised parse_error).
Proof.
  intros Hfn Hext Hline Hu run. subst run. unfold main_from.
  destruct (load_outcome priority listing fs) as [(files & -> & Hin)| ->];
    simpl.
  - rewrite (process_all_raises files [] [] _ line (Hin fn Hfn Hext) Hline Hu).
    simpl. split; [done|]. done.
  - split; [done|]. intros files [=].
Qed.

Lemma unparsable_include_aborts_witness :
  main_from [] ["duk_internal.h"] (λ _, include_quoted "foo.h")
    10000 "c" "d" "l" "a"
  = Raised parse_error.
Proof.
  refine (proj2 (unparsable_include_aborts [] ["duk_internal.h"]
                   (λ _, include_quoted "foo.h") 10000 "c" "d" "l" "a"
                   "duk_internal.h"
                   (mkLine "duk_internal.h" 1 (include_quoted "foo.h"))
                   _ _ _ _) _ _).
  - compute_done.
  - compute_done.
  - compute_done.
  - repeat split; vm_compute; reflexivity.
  - vm_compute. reflexivity.
Defined.

(** ** The header expander: termination *)

Lemma findFile_Some (files : list File) (name : string) (f : File) :
  findFile files name = Some f → filename f = name ∧ f ∈ files.
Proof.
  induction files as [|i files IH]; simpl; [done|].
  case_decide as Hi.
  - intros [= <-]. split; [done|left].
  - intros [? ?]%IH. split; [done|by right].
Qed.

Lemma findFile_file_names (files : list File) (name : string) (f : File) :
  findFile files name = Some f → filename f ∈ file_names files.
Proof.
  intros [_ Hin]%findFile_Some. unfold file_names.
  apply elem_of_list_to_set, list_elem_of_fmap. eauto.
Qed.

Lemma size_file_names (files : list File) :
  (size (file_names files) ≤ length files)%nat.
Proof.
  induction files as [|f files IH].
  - change (size (∅ : gset string) ≤ 0)%nat. by rewrite size_empty.
  - change (size ({[filename f]} ∪ file_names files) ≤ S (length files))%nat.
    rewrite size_union_alt, size_singleton.
    assert (size (file_names files ∖ {[filename f]})
            ≤ size (file_names files))%nat
      by (apply subseteq_size; set_solver).
    lia.
Qed.

Section header_loop.
Context (files : list File) (rec : File → M unit).

Lemma for_each_mono (ls : list Line) (body : Line → M unit) (st : state) :
  (∀ l st, processed st ⊆ processed (body l st).2) →
  processed st ⊆ processed (for_each ls body st).2.
Proof.
  intros Hb. revert st. induction ls as [|l ls IH]; intros st; simpl; [done|].
  unfold bind. specialize (Hb l st).
  destruct (body l st) as [[[]| |] st1]; simpl in *; [|done..].
  etrans; [done|apply IH].
Qed.

Lemma header_line_mono (line : Line) (st : state) :
  (∀ f st, processed st ⊆ processed (rec f st).2) →
  processed st ⊆ processed (header_line files rec line st).2.
Proof.
  intros Hrec. unfold header_line.
  destruct (re_intinc _) as [incname|]; [|by rewrite emit_processed].
  case_decide; [by rewrite emit_processed|].
  destruct (findFile _ _) as [f_inc|]; [|done].
  case_decide; [by rewrite emit_processed|].
  unfold bind, mark_processed. etrans; [|apply Hrec]. simpl. set_solver.
Qed.

(** One line does not run out of fuel when the recursive call does not,
    for any state with at most [n] unmarked files. *)
Lemma header_line_fuel (n : nat) (line : Line) (st : state) :
  (∀ f st, (unprocessed files st < n)%nat → (rec f st).1 ≠ Diverged) →
  (unprocessed files st ≤ n)%nat →
  (header_line files rec line st).1 ≠ Diverged.
Proof.
  intros Hrec Hn. unfold header_line.
  destruct (re_intinc _) as [incname|]; [|done].
  case_decide; [done|].
  destruct (findFile _ _) as [f_inc|] eqn:Hfind; [|done].
  case_decide as Hp; [simpl; by destruct (emit_state st).2|].
  unfold bind, mark_processed. apply Hrec. unfold unprocessed in *. simpl.
  apply findFile_file_names in Hfind.
  eapply Nat.lt_le_trans; [|done].
  apply subset_size. set_solver.
Qed.
End header_loop.

(** [processed] only grows. *)
Lemma processHeader_mono (fuel : nat) (files : list File) (f : File)
    (st : state) :
  processed st ⊆ processed (processHeader fuel files f st).2.
Proof.
  revert f st. induction fuel as [|n IH]; intros f st; simpl; [done|].
  apply for_each_mono. intros l st1. by apply header_line_mono.
Qed.

(** The depth of the nested calls of [processHeader] is at most one more
    than the number of loaded files that are not marked yet. *)
Lemma processHeader_fuel_enough (fuel : nat) (files : list File) (f : File)
    (st : state) :
  (unprocessed files st < fuel)%nat →
  (processHeader fuel files f st).1 ≠ Diverged.
Proof.
  revert f st. induction fuel as [|n IH]; intros f st Hn; [lia|]. simpl.
  assert (unprocessed files st ≤ n)%nat as Hle by lia. clear Hn.
  revert st Hle. induction (lines f) as [|l ls IHl]; intros st Hle; [done|].
  simpl. unfold bind.
  pose proof (header_line_fuel files (processHeader n files) n l st IH Hle)
    as Hl.
  pose proof (header_line_mono files (processHeader n files) l st
                (processHeader_mono n files)) as Hm.
  destruct (header_line _ _ l st) as [[[]| |] st1]; simpl in *; [|done..].
  apply IHl. etrans; [|exact Hle]. unfold unprocessed.
  apply subseteq_size. set_solver.
Qed.

(** More fuel than needed does not change the result. *)
Lemma processHeader_fuel_irrelevant (n m : nat) (files : list File) (f : File)
    (st : state) :
  (n ≤ m)%nat → (processHeader n files f st).1 ≠ Diverged →
  processHeader m files f st = processHeader n files f st.
Proof.
  revert m f st. induction n as [|n IH]; intros m f st Hnm Hd; [done|].
  destruct m as [|m]; [lia|]. simpl in *.
  revert st Hd. induction (lines f) as [|l ls IHl]; intros st Hd; [done|].
  simpl in *. unfold bind in *.
  assert (header_line files (processHeader m files) l st
          = header_line files (processHeader n files) l st) as ->.
  { revert Hd. unfold header_line.
    destruct (re_intinc _) as [incname|]; [|done].
    case_decide; [done|].
    destruct (findFile _ _) as [f_inc|]; [|done].
    case_decide; [done|].
    unfold bind, mark_processed. intros Hd. apply IH; [lia|].
    intros Hdiv. apply Hd.
    by destruct (processHeader n files f_inc _) as [[[]| |] st1]. }
  destruct (header_line _ _ l st) as [[[]| |] st1]; simpl in *; [|done..].
  by apply IHl.
Qed.

(** ** The header expander: what is emitted *)

Lemma header_line_flattens (files : list File) (rec : File → M unit)
    (line : Line) :
  header_line files rec line
  = match flattens line with
    | None => emit (ILine line)
    | Some incname =>
        match findFile files incname with
        | None => raise AssertionError
        | Some f_inc => λ st,
            if decide (filename f_inc ∈ processed st)
            then emit (IStr (already_included (filename f_inc))) st
            else (mark_processed (filename f_inc) ;;; rec f_inc) st
        end
    end.
Proof.
  unfold header_line, flattens.
  destruct (re_intinc _); [|done]. by case_decide.
Qed.

Lemma set_processed_id (st : state) : set_processed (processed st) st = st.
Proof. by destruct st. Qed.

Lemma processed_set_processed (P : gset string) (st : state) :
  processed (set_processed P st) = P.
Proof. done. Qed.

Lemma emit_all_set_processed (evs : list item) (P : gset string) (st : state) :
  for_each evs emit (set_processed P st)
  = ((for_each evs emit st).1, set_processed P (for_each evs emit st).2).
Proof.
  revert st. induction evs as [|i evs IH]; intros st; simpl; [done|].
  unfold bind. rewrite emit_set_processed.
  destruct (emit i st) as [[[]| |] st1]; simpl; [|done..]. apply IH.
Qed.

Lemma emit_all_processed (evs : list item) (st : state) :
  processed (for_each evs emit st).2 = processed st.
Proof. apply for_each_processed, emit_processed. Qed.

(** A run of the emitter from [st] that agrees with [st'] on [res] and
    [emit_state]. *)
Lemma emit_all_transport (evs : list item) (P : gset string) (st st' : state) :
  for_each evs emit (set_processed P st) = (Done tt, set_processed P st') →
  for_each evs emit st = (Done tt, set_processed (processed st) st').
Proof.
  rewrite emit_all_set_processed.
  pose proof (emit_all_processed evs st) as HP.
  destruct (for_each evs emit st) as [o st1]; simpl in *.
  intros [= -> Hr He]. f_equal.
  destruct st1; simpl in *; subst. done.
Qed.

Section refinement.
Context (files : list File).
Context (rec : File → M unit) (rec' : File → gset string → option trace).
Context (Hrec : ∀ f st st',
  rec f st = (Done tt, st') →
  ∃ evs ord,
    rec' f (processed st) = Some (evs, ord) ∧
    for_each evs emit st = (Done tt, set_processed (processed st) st') ∧
    processed st' = list_to_set ord ∪ processed st).

Lemma header_line_expansion (line : Line) (st st' : state) :
  header_line files rec line st = (Done tt, st') →
  ∃ evs ord,
    expansion_line files rec' line (processed st) = Some (evs, ord) ∧
    for_each evs emit st = (Done tt, set_processed (processed st) st') ∧
    processed st' = list_to_set ord ∪ processed st.
Proof.
  assert (Hemit : ∀ i, emit i st = (Done tt, st') →
    for_each [i] emit st = (Done tt, set_processed (processed st) st') ∧
    processed st' = list_to_set [] ∪ processed st).
  { intros i Hi. pose proof (emit_processed i st) as HP.
    simpl. unfold bind. rewrite Hi in *. simpl in *.
    rewrite <- HP, set_processed_id. split; [done|]. set_solver. }
  unfold header_line, expansion_line.
  destruct (re_intinc _) as [incname|]; [|intros; do 2 eexists; eauto].
  case_decide; [intros; do 2 eexists; eauto|].
  destruct (findFile _ _) as [f_inc|]; [|done].
  case_decide as Hp; [intros; do 2 eexists; eauto|].
  unfold bind, mark_processed. intros Hr.
  destruct (Hrec _ _ _ Hr) as (evs & ord & Hr' & Hevs & HP). simpl in *.
  rewrite Hr'. simpl.
  do 2 eexists. split; [done|]. split.
  - apply (emit_all_transport _ ({[filename f_inc]} ∪ processed st)).
    etrans; [exact Hevs|]. done.
  - rewrite HP. rewrite list_to_set_cons. set_solver.
Qed.

Lemma header_lines_expansion (ls : list Line) (st st' : state) :
  for_each ls (header_line files rec) st = (Done tt, st') →
  ∃ evs ord,
    expansion_lines (expansion_line files rec') ls (processed st)
    = Some (evs, ord) ∧
    for_each evs emit st = (Done tt, set_processed (processed st) st') ∧
    processed st' = list_to_set ord ∪ processed st.
Proof.
  revert st. induction ls as [|l ls IH]; intros st; simpl.
  - intros [= <-]. exists [], []. rewrite set_processed_id.
    split; [done|]. split; [done|]. set_solver.
  - unfold bind at 1.
    destruct (header_line files rec l st) as [[[]| |] st1] eqn:Hl; [|done..].
    intros Hls.
    destruct (header_line_expansion _ _ _ Hl) as (e1 & o1 & -> & He1 & HP1).
    destruct (IH _ Hls) as (e2 & o2 & He & He2 & HP2).
    rewrite HP1 in He. simpl. rewrite He. simpl.
    do 2 eexists. split; [done|]. split.
    + rewrite for_each_app. unfold bind. rewrite He1.
      rewrite emit_all_set_processed, He2. done.
    + rewrite HP2, HP1, list_to_set_app_L. set_solver.
Qed.
End refinement.

(** When [processHeader] returns, [expansion] gives the calls of [emit]
    it made and the headers it marked. *)
Lemma processHeader_expansion (fuel : nat) (files : list File) (f : File)
    (st st' : state) :
  processHeader fuel files f st = (Done tt, st') →
  ∃ evs ord,
    expansion fuel files f (processed st) = Some (evs, ord) ∧
    for_each evs emit st = (Done tt, set_processed (processed st) st') ∧
    processed st' = list_to_set ord ∪ processed st.
Proof.
  revert f st st'. induction fuel as [|n IH]; intros f st st'; [done|].
  simpl. by apply header_lines_expansion.
Qed.

Lemma string_length_app (s t : string) :
  String.length (s +:+ t) = (String.length s + String.length t)%nat.
Proof. induction s as [|a s IH]; simpl; [done|]. by rewrite IH. Qed.

Lemma string_app_inj_r (s1 s2 t : string) : s1 +:+ t = s2 +:+ t → s1 = s2.
Proof.
  revert s2. induction s1 as [|a s1 IH]; intros [|b s2] Heq.
  - done.
  - apply (f_equal String.length) in Heq.
    rewrite !string_length_app in Heq. simpl in Heq. lia.
  - apply (f_equal String.length) in Heq.
    rewrite !string_length_app in Heq. simpl in Heq. lia.
  - change (String a (s1 +:+ t) = String b (s2 +:+ t)) in Heq.
    injection Heq as -> Heq. f_equal. by apply IH.
Qed.

Lemma already_included_inj (a b : string) :
  already_included a = already_included b → a = b.
Proof.
  intros Heq. unfold already_included in Heq.
  apply (inj (String.app _)) in Heq. by apply string_app_inj_r in Heq.
Qed.

Lemma placeholder_inj (n h : string) :
  IStr (already_included n) = IStr (already_included h) → n = h.
Proof.
  generalize (already_included_inj n h).
  generalize (already_included n) (already_included h).
  intros a b Hinj [= ->]. by apply Hinj.
Qed.

Section trace.
Context (files : list File).

Lemma trace_ok_nil (P : gset string) : trace_ok files [] P ([], []).
Proof.
  unfold trace_ok; cbn [fst snd]; split_and!.
  - constructor.
  - by intros ? ?%elem_of_nil.
  - done.
  - done.
  - by intros ? ?%elem_of_nil.
  - by intros ? ?%elem_of_nil.
Qed.

Lemma trace_ok_plain (l : Line) (P : gset string) :
  flattens l = None → trace_ok files [l] P ([ILine l], []).
Proof.
  intros Hl. unfold trace_ok; cbn [fst snd]; split_and!.
  - constructor.
  - by intros ? ?%elem_of_nil.
  - unfold content. by rewrite filter_cons_True by done.
  - intros h. unfold placeholders, includes_of. simpl.
    rewrite filter_cons_False by congruence. done.
  - intros h Hh%list_elem_of_singleton. done.
  - intros s Hs%list_elem_of_singleton. done.
Qed.

Lemma trace_ok_placeholder (l : Line) (n : string) (P : gset string) :
  flattens l = Some n → n ∈ P →
  trace_ok files [l] P ([IStr (already_included n)], []).
Proof.
  intros Hl Hn. unfold trace_ok; cbn [fst snd]; split_and!.
  - constructor.
  - by intros ? ?%elem_of_nil.
  - unfold content. by rewrite filter_cons_False by congruence.
  - intros h. unfold placeholders, includes_of. rewrite app_nil_r.
    destruct (decide (n = h)) as [->|Hne].
    + by rewrite !filter_cons_True by done.
    + rewrite filter_cons_False by (by intros ?%placeholder_inj).
      rewrite filter_cons_False by congruence. done.
  - intros h Hh%list_elem_of_singleton%placeholder_inj. left. by subst.
  - intros s Hs%list_elem_of_singleton. injection Hs as ->. by eexists.
Qed.

Lemma trace_ok_include (l : Line) (n : string) (f_inc : File)
    (P : gset string) (evs : list item) (ord : list string) :
  flattens l = Some n → findFile files n = Some f_inc → n ∉ P →
  trace_ok files (lines f_inc) ({[ n ]} ∪ P) (evs, ord) →
  trace_ok files [l] P (evs, n :: ord).
Proof.
  intros Hl Hf Hn (Hnd & Hord & Hperm & Hcount & Hph & Hstr). simpl in *.
  assert (lines_of files n = lines f_inc) as Hlo
    by (unfold lines_of; by rewrite Hf).
  unfold trace_ok; cbn [fst snd]; split_and!.
  - constructor; [|done]. intros Hin. apply Hord in Hin as [Hin _].
    set_solver.
  - intros h [->|Hh]%elem_of_cons; [by rewrite Hf|].
    apply Hord in Hh as [Hh ?]. split; [set_solver|done].
  - unfold content at 1. rewrite filter_cons_False by congruence.
    rewrite bind_cons. unfold content_of at 1. by rewrite Hlo.
  - intros h. specialize (Hcount h). rewrite bind_cons, Hlo.
    unfold includes_of in *. rewrite filter_app, length_app, <- Hcount.
    rewrite (filter_cons (eq h)), (filter_cons _ l), filter_nil.
    repeat case_decide; simpl; try lia; congruence.
  - intros h Hh. apply Hph in Hh as [Hh|Hh]; [|right; by right].
    apply elem_of_union in Hh as [Hh%elem_of_singleton|Hh]; [|by left].
    right. subst. left.
  - done.
Qed.

Lemma trace_ok_seq (l : Line) (ls : list Line) (P : gset string)
    (e1 e2 : list item) (o1 o2 : list string) :
  trace_ok files [l] P (e1, o1) →
  trace_ok files ls (list_to_set o1 ∪ P) (e2, o2) →
  trace_ok files (l :: ls) P (e1 ++ e2, o1 ++ o2).
Proof.
  intros (Hnd1 & Hord1 & Hperm1 & Hcount1 & Hph1 & Hstr1)
         (Hnd2 & Hord2 & Hperm2 & Hcount2 & Hph2 & Hstr2). cbn [fst snd] in *.
  unfold trace_ok; cbn [fst snd]; split_and!.
  - apply NoDup_app. split_and!; [done| |done].
    intros x Hx1 Hx2. apply Hord2 in Hx2 as [Hx2 _]. set_solver.
  - intros h [Hh|Hh]%elem_of_app; [by apply Hord1|].
    apply Hord2 in Hh as [Hh ?]. split; [set_solver|done].
  - unfold emitted_lines in *. rewrite omap_app, Hperm1, Hperm2, bind_app.
    change (l :: ls) with ([l] ++ ls). unfold content. rewrite filter_app.
    rewrite <- !(assoc_L (++)). f_equiv.
    rewrite !(assoc_L (++)). f_equiv. apply (comm (++)).
  - intros h. specialize (Hcount1 h). specialize (Hcount2 h).
    unfold placeholders, includes_of in *.
    rewrite bind_app. change (l :: ls) with ([l] ++ ls).
    rewrite !filter_app, !length_app.
    rewrite !filter_app, !length_app in Hcount1.
    rewrite !filter_app, !length_app in Hcount2. lia.
  - intros h [Hh|Hh]%elem_of_app.
    + apply Hph1 in Hh as [Hh|Hh]; [by left|right].
      apply elem_of_app. by left.
    + apply Hph2 in Hh as [Hh|Hh].
      * apply elem_of_union in Hh as [Hh%elem_of_list_to_set|Hh]; [|by left].
        right. apply elem_of_app. by left.
      * right. apply elem_of_app. by right.
  - intros s [Hs|Hs]%elem_of_app; auto.
Qed.

Lemma expansion_lines_ok (rec' : File → gset string → option trace)
    (ls : list Line) (P : gset string) (t : trace) :
  (∀ f P t, rec' f P = Some t → trace_ok files (lines f) P t) →
  expansion_lines (expansion_line files rec') ls P = Some t →
  trace_ok files ls P t.
Proof.
  intros Hrec. revert P t. induction ls as [|l ls IH]; intros P t; simpl.
  - intros [= <-]. apply trace_ok_nil.
  - destruct (expansion_line files rec' l P) as [[e1 o1]|] eqn:Hl;
      simpl; [|done].
    destruct (expansion_lines _ ls _) as [[e2 o2]|] eqn:Hls; simpl; [|done].
    intros [= <-]. apply trace_ok_seq; [|by apply IH].
    clear Hls IH. revert Hl. unfold expansion_line.
    pose proof (eq_refl (flattens l)) as Hfl. revert Hfl.
    unfold flattens at 1.
    destruct (re_intinc (data l)) as [incname|].
    2:{ intros Hfl [= <- <-]. by apply trace_ok_plain. }
    case_decide.
    { intros Hfl [= <- <-]. by apply trace_ok_plain. }
    intros Hfl. destruct (findFile files incname) as [f_inc|] eqn:Hf; [|done].
    destruct (findFile_Some _ _ _ Hf) as [-> _].
    case_decide as Hp.
    { intros [= <- <-]. by apply trace_ok_placeholder. }
    destruct (rec' f_inc _) as [[evs ord]|] eqn:Hr; simpl; [|done].
    intros [= <- <-]. eapply trace_ok_include; eauto.
Qed.
End trace.

Lemma expansion_ok (fuel : nat) (files : list File) (f : File)
    (P : gset string) (t : trace) :
  expansion fuel files f P = Some t → trace_ok files (lines f) P t.
Proof.
  revert f P t. induction fuel as [|n IH]; intros f P t; [done|].
  simpl. by apply expansion_lines_ok.
Qed.

(** ** The header expander: each flattened header once *)

Lemma read_lines_spec (fname : string) (n : Z) (raw : list string) :
  NoDup (read_lines fname n raw) ∧
  Forall (λ l, line_filename l = fname ∧ n < lineno l) (read_lines fname n raw).
Proof.
  revert n. induction raw as [|r raw IH]; intros n; simpl.
  - split; constructor.
  - destruct (IH (n + 1)) as [Hnd Hall]. split.
    + constructor; [|done]. intros Hin.
      eapply Forall_forall in Hall; [|exact Hin]. simpl in Hall. lia.
    + constructor; [simpl; split; [done|lia]|].
      eapply Forall_impl; [exact Hall|]. simpl. intros l [? ?]. split; [done|lia].
Qed.

Lemma load_wf (priority listing : list string) (fs : string → string)
    (files : list File) :
  load priority listing fs = Done files → wf_files files.
Proof.
  unfold load. destruct (order_filelist _ _) as [fl| |]; simpl; [|done..].
  intros [= <-]. unfold wf_files. apply Forall_fmap, Forall_forall.
  intros fn _. simpl. destruct (read_lines_spec fn 0 (iter_lines (fs fn)))
    as [Hnd Hall].
  split; [done|]. eapply Forall_impl; [exact Hall|]. by intros l [? _].
Qed.




Section once.
Context (files : list File) (Hwf : wf_files files).



End once.





(** C1, at a tree where the code departs from it.  The source directory
    holds the priority files of [main], all empty, the root header with
    the line [int r;] and the include of [duk_a.h], and [duk_a.h] with
    the line [int a;] and the include of the root.  The root is included
    by a header that is reached from it, and its content line is in the
    merged output twice: the root is expanded without its name being
    marked first, as the name of every other header is. *)
Theorem root_content_emitted_twice :
  main (handpick ++ ["duk_a.h"; "duk_internal.h"]) cyclic_fs
    10000 "c" "d" "" ""
  = Done (join_lines
            (banner 10000 "c" "d" "" "" ++
             [ line_marker (mkLine "duk_internal.h" 1 "int r;"); "int r;";
               line_marker (mkLine "duk_a.h" 1 "int a;"); "int a;";
               line_marker (mkLine "duk_internal.h" 1 "int r;"); "int r;";
               already_included "duk_a.h" ])
          +:+ String newline EmptyString).
Proof. vm_compute. reflexivity. Qed.

(** ** The root header is not marked *)




(** ** Cycle safety *)

Lemma emit_lines_run (ls : list Line) (st : state) :
  for_each (ILine <$> ls) emit st = (Done tt, emit_lines ls st).
Proof.
  unfold emit_lines. revert st. induction ls as [|l ls IH]; intros st; [done|].
  csimpl. unfold bind. simpl. apply IH.
Qed.

Lemma emit_lines_app (ls1 ls2 : list Line) (st : state) :
  emit_lines (ls1 ++ ls2) st = emit_lines ls2 (emit_lines ls1 st).
Proof.
  unfold emit_lines at 1. rewrite fmap_app, for_each_app. unfold bind.
  by rewrite !emit_lines_run.
Qed.

Lemma emit_lines_set_processed (ls : list Line) (P : gset string) (st : state) :
  emit_lines ls (set_processed P st) = set_processed P (emit_lines ls st).
Proof. unfold emit_lines. by rewrite emit_all_set_processed. Qed.

Lemma emit_lines_processed (ls : list Line) (st : state) :
  processed (emit_lines ls st) = processed st.
Proof. apply emit_all_processed. Qed.

Lemma emit_lines_cursor (ls : list Line) (st : state) :
  ls ≠ [] ∨ is_Some (emit_state st).2 →
  is_Some (emit_state (emit_lines ls st)).2.
Proof.
  revert st. induction ls as [|l ls IH]; intros st Hst.
  - by destruct Hst.
  - change (l :: ls) with ([l] ++ ls). rewrite emit_lines_app.
    apply IH. right. by eexists.
Qed.

Lemma plain_header_lines (files : list File) (rec : File → M unit)
    (ls : list Line) (st : state) :
  plain ls →
  for_each ls (header_line files rec) st = (Done tt, emit_lines ls st).
Proof.
  intros Hp. rewrite <- emit_lines_run. revert st.
  induction Hp as [|l ls Hl Hp IH]; intros st; [done|].
  csimpl. unfold bind. rewrite header_line_flattens, Hl. simpl.
  apply IH.
Qed.

Lemma header_line_flatten (files : list File) (rec : File → M unit)
    (line : Line) (f_inc : File) (st : state) :
  flattens line = Some (filename f_inc) →
  findFile files (filename f_inc) = Some f_inc →
  filename f_inc ∉ processed st →
  header_line files rec line st
  = rec f_inc (set_processed ({[ filename f_inc ]} ∪ processed st) st).
Proof.
  intros Hl Hf Hp. rewrite header_line_flattens, Hl, Hf.
  by rewrite decide_False by done.
Qed.

Lemma header_line_skip (files : list File) (rec : File → M unit)
    (line : Line) (f_inc : File) (st : state) :
  flattens line = Some (filename f_inc) →
  findFile files (filename f_inc) = Some f_inc →
  filename f_inc ∈ processed st →
  header_line files rec line st
  = emit (IStr (already_included (filename f_inc))) st.
Proof.
  intros Hl Hf Hp. rewrite header_line_flattens, Hl, Hf.
  by rewrite decide_True by done.
Qed.

Lemma for_each_not_diverged {A} (l : list A) (body : A → M unit) (st : state) :
  (∀ x st, (body x st).1 ≠ Diverged) → (for_each l body st).1 ≠ Diverged.
Proof.
  intros Hb. revert st. induction l as [|x l IH]; intros st; simpl; [done|].
  unfold bind. specialize (Hb x st).
  destruct (body x st) as [[[]| |] st1]; simpl in *; [apply IH|done..].
Qed.

Lemma emit_not_diverged (i : item) (st : state) : (emit i st).1 ≠ Diverged.
Proof. destruct i; simpl; [done|]. by destruct (emit_state st).2. Qed.

Lemma combine_not_diverged (files : list File) (st : state) :
  (combine (S (length files)) files st).1 ≠ Diverged.
Proof.
  unfold combine. destruct (findFile _ _) as [f|]; [|done].
  unfold bind.
  assert ((processHeader (S (length files)) files f st).1 ≠ Diverged) as Hh.
  { apply processHeader_fuel_enough. unfold unprocessed.
    pose proof (size_file_names files).
    assert (size (file_names files ∖ processed st) ≤ size (file_names files))%nat
      by (apply subseteq_size; set_solver).
    lia. }
  destruct (processHeader _ _ _ _) as [[[]| |] st1]; simpl in *; [|done..].
  assert ((mark_headers files st1).1 ≠ Diverged) as Hm.
  { apply for_each_not_diverged. intros x s. by case_decide. }
  destruct (mark_headers files st1) as [[[]| |] st2]; simpl in *; [|done..].
  apply for_each_not_diverged. intros x s. case_decide; [done|].
  apply for_each_not_diverged. intros l s'. unfold body_line.
  destruct (re_intinc _); apply emit_not_diverged.
Qed.

(** C5. The expansion terminates on every include graph, cyclic or not:
    a header is marked before it is expanded and a marked header is not
    expanded, so that the calls nest at most one deeper than there are
    unmarked files, and the bound [createCombined] uses is never hit.
    When [A] includes [B] and then [C], and [C] includes [B] as well
    (the other lines being no internal includes), the calls of [emit] are:
    the lines of [A] before the first include, the lines of [B], the
    lines of [A] between the includes, the lines of [C] before its
    include, one placeholder comment for [B], and the rest of [C] and of
    [A]; two levels of nesting are enough; the run returns when [B] has
    a line. *)
Theorem cycle_safety :
  (∀ (fuel : nat) (files : list File) (f : File) (st : state),
     (unprocessed files st < fuel)%nat →
     (processHeader fuel files f st).1 ≠ Diverged ∧
     ∀ m, (fuel ≤ m)%nat →
          processHeader m files f st = processHeader fuel files f st) ∧
  (∀ (files : list File) (extinc intinc : list string) (duk_version : Z)
     (git_commit git_describe license_text authors_text : string),
     createCombined files extinc intinc duk_version git_commit git_describe
       license_text authors_text ≠ Diverged) ∧
  (∀ (files : list File) (A B C : File) (incB incC incB' : Line)
     (preA midA postA preC postC : list Line) (st : state) (n : nat),
     findFile files (filename B) = Some B →
     findFile files (filename C) = Some C →
     filename B ≠ filename C →
     flattens incB = Some (filename B) →
     flattens incC = Some (filename C) →
     flattens incB' = Some (filename B) →
     lines A = preA ++ incB :: midA ++ incC :: postA →
     lines C = preC ++ incB' :: postC →
     plain preA → plain midA → plain postA →
     plain preC → plain postC → plain (lines B) →
     filename B ∉ processed st → filename C ∉ processed st →
     processHeader (2 + n) files A st
     = for_each
         ((ILine <$> preA ++ lines B ++ midA ++ preC)
          ++ IStr (already_included (filename B))
          :: (ILine <$> postC ++ postA))
         emit
         (set_processed
            ({[ filename C ]} ∪ ({[ filename B ]} ∪ processed st)) st) ∧
     (lines B ≠ [] → (processHeader (2 + n) files A st).1 = Done tt)).
Proof.
  split_and!.
  - intros fuel files f st Hfuel.
    pose proof (processHeader_fuel_enough fuel files f st Hfuel) as Hd.
    split; [done|]. intros m Hm. by apply processHeader_fuel_irrelevant.
  - intros files extinc intinc v gc gd lt at'. unfold createCombined.
    pose proof (combine_not_diverged files
      (mkState (banner v gc gd lt at') (None, None) ∅)) as Hc.
    by destruct (combine _ _ _) as [[[]| |] st1].
  - intros files A B C incB incC incB' preA midA postA preC postC st n
      HfB HfC Hne HincB HincC HincB' HA HC
      HpreA HmidA HpostA HpreC HpostC HB HstB HstC.
    set (PB := {[filename B]} ∪ processed st).
    set (PC := {[filename C]} ∪ PB).
    set (s4 := set_processed PC
                 (emit_lines (preA ++ lines B ++ midA ++ preC) st)).
    assert (Hrhs : ∀ k : unit → M unit,
      bind (for_each (ILine <$> preA ++ lines B ++ midA ++ preC) emit) k
        (set_processed PC st) = k tt s4).
    { intros k. unfold bind.
      by rewrite emit_lines_run, emit_lines_set_processed. }
    assert (Hlhs :
      processHeader (2 + n) files A st
      = match emit (IStr (already_included (filename B))) s4 with
        | (Done _, s5) => (Done tt, emit_lines (postC ++ postA) s5)
        | (Raised e, s5) => (Raised e, s5)
        | (Diverged, s5) => (Diverged, s5)
        end).
    { change (processHeader (2 + n) files A st)
        with (for_each (lines A)
                (header_line files (processHeader (S n) files)) st).
      rewrite HA, for_each_app. unfold bind at 1.
      rewrite plain_header_lines by done. cbn [for_each]. unfold bind at 1.
      rewrite (header_line_flatten files _ incB B);
        [|done|done|by rewrite emit_lines_processed].
      rewrite emit_lines_processed. fold PB.
      change (processHeader (S n) files B)
        with (for_each (lines B) (header_line files (processHeader n files))).
      rewrite plain_header_lines by done.
      rewrite for_each_app. unfold bind at 1.
      rewrite plain_header_lines by done. cbn [for_each]. unfold bind at 1.
      rewrite (header_line_flatten files _ incC C);
        [|done|done|
         rewrite !emit_lines_processed, processed_set_processed; set_solver].
      rewrite !emit_lines_processed, processed_set_processed. fold PC.
      change (processHeader (S n) files C)
        with (for_each (lines C) (header_line files (processHeader n files))).
      rewrite HC, for_each_app. unfold bind at 1.
      rewrite plain_header_lines by done. cbn [for_each]. unfold bind at 1.
      rewrite (header_line_skip files _ incB' B);
        [|done|done|
         rewrite emit_lines_processed, processed_set_processed; set_solver].
      assert (emit_lines preC
                (set_processed PC
                   (emit_lines midA
                      (emit_lines (lines B)
                         (set_processed PB (emit_lines preA st))))) = s4)
        as ->.
      { unfold s4. rewrite !emit_lines_app.
        by rewrite !emit_lines_set_processed. }
      destruct (emit _ s4) as [[[]| |] s5]; [|done..].
      rewrite plain_header_lines by done.
      rewrite plain_header_lines by done.
      by rewrite emit_lines_app. }
    assert (Hrun :
      for_each
        ((ILine <$> preA ++ lines B ++ midA ++ preC)
         ++ IStr (already_included (filename B)) :: (ILine <$> postC ++ postA))
        emit (set_processed PC st)
      = match emit (IStr (already_included (filename B))) s4 with
        | (Done _, s5) => (Done tt, emit_lines (postC ++ postA) s5)
        | (Raised e, s5) => (Raised e, s5)
        | (Diverged, s5) => (Diverged, s5)
        end).
    { rewrite for_each_app, Hrhs. cbn [for_each]. unfold bind.
      destruct (emit _ s4) as [[[]| |] s5]; [|done..].
      apply emit_lines_run. }
    split; [by rewrite Hlhs, Hrun|].
    intros HBne. rewrite Hlhs.
    assert (is_Some (emit_state s4).2) as [k Hk].
    { unfold s4. simpl. apply emit_lines_cursor. left.
      destruct preA; [|done]. simpl. by destruct (lines B). }
    unfold emit. rewrite Hk. done.
Qed.

Lemma cycle_safety_witness :
  let files := tree diamond_fs ["duk_b.h"; "duk_c.h"; "duk_internal.h"] in
  let A := read "duk_internal.h" (diamond_fs "duk_internal.h") in
  processHeader 2 files A st_empty
  = for_each
      [ ILine (mkLine "duk_internal.h" 1 "int a1;");
        ILine (mkLine "duk_b.h" 1 "int b;");
        IStr (already_included "duk_b.h");
        ILine (mkLine "duk_c.h" 2 "int c;");
        ILine (mkLine "duk_internal.h" 4 "int a2;") ]
      emit (set_processed {[ "duk_c.h"; "duk_b.h" ]} st_empty) ∧
  (processHeader 2 files A st_empty).1 = Done tt.
Proof.
  intros files A.
  destruct (proj2 (proj2 cycle_safety) files A
              (read "duk_b.h" (diamond_fs "duk_b.h"))
              (read "duk_c.h" (diamond_fs "duk_c.h"))
              (mkLine "duk_internal.h" 2 (include_quoted "duk_b.h"))
              (mkLine "duk_internal.h" 3 (include_quoted "duk_c.h"))
              (mkLine "duk_c.h" 1 (include_quoted "duk_b.h"))
              [mkLine "duk_internal.h" 1 "int a1;"] []
              [mkLine "duk_internal.h" 4 "int a2;"]
              [] [mkLine "duk_c.h" 2 "int c;"] st_empty 0%nat)
    as [Hrun Hdone]; try (vm_compute; reflexivity); try compute_done.
  split; [|apply Hdone; by vm_compute].
  etrans; [exact Hrun|]. vm_compute. reflexivity.
Defined.

(** ** External includes *)

Lemma strip_prefix_Some (p s r : string) :
  strip_prefix p s = Some r → s = p +:+ r.
Proof.
  revert s. induction p as [|a p IH]; intros [|b s]; simpl; try done.
  - by intros [= <-].
  - by intros [= <-].
  - case_decide; [|done]. subst. intros Hr%IH.
    change (String b s = String b (p +:+ r)). by f_equal.
Qed.

Lemma re_extinc_prefix (d x : string) :
  re_extinc d = Some x → ∃ r, d = "#include <" +:+ r.
Proof.
  unfold re_extinc. destruct (strip_prefix _ d) as [r|] eqn:Hr; [|done].
  intros _. exists r. by apply strip_prefix_Some.
Qed.

Lemma re_extinc_not_intinc (d : string) :
  is_Some (re_extinc d) → re_intinc d = None.
Proof.
  intros [x [r ->]%re_extinc_prefix]. done.
Qed.

Lemma re_extinc_plain (l : Line) :
  is_Some (re_extinc (data l)) → flattens l = None.
Proof. intros H%re_extinc_not_intinc. unfold flattens. by rewrite H. Qed.

Lemma directives_content (d : string) (ls : list Line) :
  is_Some (re_extinc d) → directives d (content ls) = directives d ls.
Proof.
  intros Hd. unfold directives, content. rewrite list_filter_filter.
  f_equal. apply list_filter_iff. intros l. split; [by intros [? _]|].
  intros Hl. split; [done|]. apply re_extinc_plain. by rewrite Hl.
Qed.

Lemma directives_app (d : string) (ls1 ls2 : list Line) :
  directives d (ls1 ++ ls2) = (directives d ls1 + directives d ls2)%nat.
Proof. unfold directives. by rewrite filter_app, length_app. Qed.

Lemma directives_bind_content (d : string) (files : list File)
    (ord : list string) :
  is_Some (re_extinc d) →
  directives d (ord ≫= content_of files) = directives d (ord ≫= lines_of files).
Proof.
  intros Hd. induction ord as [|h ord IH]; [done|].
  rewrite !bind_cons, !directives_app, IH. f_equal.
  by apply directives_content.
Qed.

(** The text [d] of an external include is no marker and no comment: it
    enters the output only as the text of a [Line]. *)
Lemma emit_all_count (d : string) (evs : list item) (st st' : state) :
  is_Some (re_extinc d) →
  (∀ s, IStr s ∈ evs → ∃ r, s = "/*" +:+ r) →
  for_each evs emit st = (Done tt, st') →
  count_text d (res st')
  = (count_text d (res st) + directives d (emitted_lines evs))%nat.
Proof.
  intros [x [r ->]%re_extinc_prefix]. revert st.
  induction evs as [|i evs IH]; intros st Hstr; simpl.
  - intros [= <-]. unfold directives. simpl. lia.
  - unfold bind. destruct (emit i st) as [[[]| |] st1] eqn:Hi; [|done..].
    intros Hrun. rewrite (IH st1); [|intros s Hs; apply Hstr; by right|done].
    assert (count_text ("#include <" +:+ r) (res st1)
            = count_text ("#include <" +:+ r) (res st)
              + directives ("#include <" +:+ r) (emitted_lines [i]))%nat
      as ->.
    { destruct i as [l|s].
      - injection Hi as <-. cbn [res]. unfold count_text, directives.
        change (emitted_lines [ILine l]) with [l].
        rewrite filter_app, length_app.
        assert (filter (eq ("#include <" +:+ r))
                  (if decide (Some (line_filename l) ≠ (emit_state st).1
                              ∨ Some (lineno l) ≠ (emit_state st).2)
                   then res st ++ [line_marker l] else res st)
                = filter (eq ("#include <" +:+ r)) (res st)) as ->.
        { case_decide; [|done]. rewrite filter_app.
          rewrite (filter_cons_False _ (line_marker l)) by done.
          by rewrite app_nil_r. }
        f_equal. rewrite !(filter_cons _ _ []), !filter_nil.
        repeat case_decide; simpl; congruence.
      - destruct (Hstr s) as [r' ->]; [left|].
        revert Hi. unfold emit. destruct (emit_state st).2; [|done].
        intros [= <-]. cbn [res]. unfold count_text, directives.
        rewrite filter_app, length_app.
        rewrite (filter_cons_False _ ("/*" +:+ r')) by done. done. }
    destruct i as [l|s]; simpl.
    + change (l :: emitted_lines evs) with ([l] ++ emitted_lines evs).
      rewrite directives_app. lia.
    + unfold directives at 1. simpl. lia.
Qed.

Lemma mark_headers_run (files : list File) (st : state) :
  mark_headers files st
  = (Done tt, set_processed (header_names files ∪ processed st) st).
Proof.
  unfold mark_headers, header_names. revert st.
  induction files as [|f files IH]; intros st; simpl.
  - unfold ret. f_equal. destruct st; unfold set_processed; simpl.
    f_equal. set_solver.
  - unfold bind. case_decide as Hext.
    + simpl. rewrite IH. rewrite filter_cons_False by done. done.
    + unfold mark_processed. rewrite IH. f_equal.
      rewrite filter_cons_True by (by destruct (decide (splitext_ext (filename f) = ".h"))).
      unfold set_processed. simpl. f_equal. set_solver.
Qed.

Lemma body_lines_items (ls : list Line) (st : state) :
  for_each ls body_line st = for_each (body_item <$> ls) emit st.
Proof.
  revert st. induction ls as [|l ls IH]; intros st; [done|].
  csimpl. unfold bind.
  assert (body_line l st = emit (body_item l) st) as ->
    by (unfold body_line, body_item; by destruct (re_intinc _)).
  destruct (emit _ st) as [[[]| |] st1]; [apply IH|done..].
Qed.

Lemma directives_body_items (d : string) (ls : list Line) :
  is_Some (re_extinc d) →
  directives d (emitted_lines (body_item <$> ls)) = directives d ls.
Proof.
  intros Hd. induction ls as [|l ls IH]; [done|]. csimpl.
  change (l :: ls) with ([l] ++ ls). rewrite directives_app, <- IH.
  unfold body_item at 1.
  destruct (re_intinc (data l)) as [n|] eqn:Hn; simpl.
  - unfold directives at 2. rewrite filter_cons_False; [done|].
    intros Hl. rewrite <- Hl in Hd. apply re_extinc_not_intinc in Hd.
    congruence.
  - change (l :: emitted_lines (body_item <$> ls))
      with ([l] ++ emitted_lines (body_item <$> ls)).
    by rewrite directives_app.
Qed.

(** What a returning merge gives to [emit]: the trace of the expansion
    of the root, then the lines of the files that are left, in the order
    of [files]. *)
Lemma combine_events (fuel : nat) (files : list File) (st st' : state) :
  combine fuel files st = (Done tt, st') →
  ∃ root evs ord,
    findFile files "duk_internal.h" = Some root ∧
    expansion fuel files root (processed st) = Some (evs, ord) ∧
    processed st' = header_names files ∪ (list_to_set ord ∪ processed st) ∧
    for_each
      (evs ++ (body_item <$>
               (filter (λ f, filename f ∉ processed st') files ≫= lines)))
      emit st
    = (Done tt, set_processed (processed st) st').
Proof.
  unfold combine.
  destruct (findFile files "duk_internal.h") as [root|]; [|done].
  unfold bind at 1.
  destruct (processHeader fuel files root st) as [[[]| |] st1] eqn:Hh;
    [|done..].
  unfold bind. rewrite mark_headers_run.
  rewrite emit_remaining_flat, body_lines_items, processed_set_processed.
  intros Hbody.
  destruct (processHeader_expansion _ _ _ _ _ Hh)
    as (evs & ord & He & Hevs & HP).
  assert (processed st'
          = header_names files ∪ (list_to_set ord ∪ processed st)) as HP'.
  { rewrite <- HP. apply (f_equal (λ r, processed r.2)) in Hbody.
    cbn [snd] in Hbody. rewrite <- Hbody.
    by rewrite emit_all_processed, processed_set_processed. }
  exists root, evs, ord. split_and!; [done..|].
  rewrite for_each_app. unfold bind. rewrite Hevs.
  rewrite HP', <- HP.
  rewrite emit_all_set_processed in Hbody |- *.
  destruct (for_each _ emit st1) as [o st2]. simpl in *.
  injection Hbody as -> <-. done.
Qed.

(** C7 (as amended). An external include is never removed or merged with
    another one: a line of the external form is given to [emit] as it is
    wherever the expander or the last loop meets it, and [emit] appends
    its text unchanged.  So the merged output holds the text of such a
    directive once for each line with that text in the root header, in
    a header that was flattened and in a file emitted by the last loop,
    besides what the banner holds.  The flattened headers [ord] are
    those of the expansion of the root, and what is given to [emit] is
    the trace [evs] of that expansion followed by the lines of the files
    that are left.  A header that is never flattened is never emitted,
    and its external includes are not in the output. *)
Theorem external_includes_kept :
  (∀ (files : list File) (rec : File → M unit) (line : Line) (st : state),
     is_Some (re_extinc (data line)) →
     header_line files rec line st = emit (ILine line) st ∧
     body_line line st = emit (ILine line) st ∧
     (emit (ILine line) st).1 = Done tt ∧
     last (res (emit (ILine line) st).2) = Some (data line)) ∧
  (∀ (fuel : nat) (files : list File) (st st' : state) (d : string),
     is_Some (re_extinc d) →
     combine fuel files st = (Done tt, st') →
     ∃ root evs ord,
       findFile files "duk_internal.h" = Some root ∧
       expansion fuel files root (processed st) = Some (evs, ord) ∧
       NoDup ord ∧
       processed st' = header_names files ∪ (list_to_set ord ∪ processed st) ∧
       for_each
         (evs ++ (body_item <$>
                  (filter (λ f, filename f ∉ processed st') files ≫= lines)))
         emit st
       = (Done tt, set_processed (processed st) st') ∧
       count_text d (res st')
       = (count_text d (res st) + directives d (lines root)
          + directives d (ord ≫= lines_of files)
          + directives d
              (filter (λ f, filename f ∉ processed st') files ≫= lines))%nat).
Proof.
  split.
  - intros files rec line st Hd. split_and!.
    + by rewrite header_line_flattens, re_extinc_plain.
    + unfold body_line. by rewrite re_extinc_not_intinc.
    + done.
    + simpl. by rewrite last_snoc.
  - intros fuel files st st' d Hd. unfold combine.
    destruct (findFile files "duk_internal.h") as [root|]; [|done].
    unfold bind at 1.
    destruct (processHeader fuel files root st) as [[[]| |] st1] eqn:Hh;
      [|done..].
    unfold bind. rewrite mark_headers_run.
    rewrite emit_remaining_flat, body_lines_items, processed_set_processed.
    intros Hbody.
    destruct (processHeader_expansion _ _ _ _ _ Hh)
      as (evs & ord & He & Hevs & HP).
    destruct (expansion_ok _ _ _ _ _ He)
      as (Hnd & _ & Hperm & _ & _ & Hstr). cbn [fst snd] in *.
    assert (processed st'
            = header_names files ∪ (list_to_set ord ∪ processed st)) as HP'.
    { rewrite <- HP. apply (f_equal (λ r, processed r.2)) in Hbody.
      cbn [snd] in Hbody. rewrite <- Hbody.
      by rewrite emit_all_processed, processed_set_processed. }
    exists root, evs, ord. split_and!; try done.
    { rewrite for_each_app. unfold bind. rewrite Hevs.
      rewrite HP', <- HP.
      rewrite emit_all_set_processed in Hbody |- *.
      destruct (for_each _ emit st1) as [o st2]. simpl in *.
      injection Hbody as -> <-. done. }
    assert (Hc2 : count_text d (res st')
                  = (count_text d (res st1)
                     + directives d
                         (emitted_lines
                            (body_item <$>
                             filter (λ f, filename f
                                          ∉ header_names files ∪ processed st1)
                               files ≫= lines)))%nat).
    { apply (emit_all_count d _ _ _ Hd) in Hbody; [done|].
      intros s (l & Hs & _)%list_elem_of_fmap. revert Hs.
      unfold body_item. destruct (re_intinc _) as [n|]; [|done].
      intros [= ->]. by eexists. }
    assert (Hc1 : count_text d (res st1)
                  = (count_text d (res st)
                     + directives d (emitted_lines evs))%nat).
    { apply (emit_all_count d _ _ _ Hd) in Hevs; [done|].
      intros s [h ->]%Hstr. by eexists. }
    rewrite Hc2, Hc1, directives_body_items by done.
    rewrite HP', <- HP.
    assert (directives d (emitted_lines evs)
            = directives d (lines root) + directives d (ord ≫= lines_of files))%nat
      as ->.
    { unfold directives at 1. rewrite Hperm.
      change (directives d (content (lines root) ++ (ord ≫= content_of files))
              = (directives d (lines root)
                 + directives d (ord ≫= lines_of files))%nat).
      rewrite directives_app, directives_content, directives_bind_content;
        done. }
    lia.
Qed.

Lemma external_includes_kept_witness :
  let files := tree unused_fs ["duk_internal.h"; "duk_unused.h"] in
  let st' := (combine 3 files st_empty).2 in
  ∃ root evs ord,
    findFile files "duk_internal.h" = Some root ∧
    expansion 3 files root ∅ = Some (evs, ord) ∧
    count_text "#include <stdio.h>" (res st')
    = (count_text "#include <stdio.h>" (res st_empty)
       + directives "#include <stdio.h>" (lines root)
       + directives "#include <stdio.h>" (ord ≫= lines_of files)
       + directives "#include <stdio.h>"
           (filter (λ f, filename f ∉ processed st') files ≫= lines))%nat.
Proof.
  intros files st'.
  destruct (proj2 external_includes_kept 3%nat files st_empty st'
              "#include <stdio.h>")
    as (root & evs & ord & Hroot & He & _ & _ & _ & Hcount).
  - vm_compute. by eexists.
  - vm_compute. reflexivity.
  - exists root, evs, ord. auto.
Defined.

(** C7 (as stated) fails: in a source directory with the priority files
    of [main], all empty, the root header and [duk_unused.h] both
    include [stdio.h] verbatim, and the merged output has the directive
    once, because a header that is not reached from the root is never
    emitted. *)
Lemma unreached_header_counterexample :
  let d := "#include <stdio.h>" in
  d ∈ data <$> lines (read "duk_internal.h" (unused_fs "duk_internal.h")) ∧
  d ∈ data <$> lines (read "duk_unused.h" (unused_fs "duk_unused.h")) ∧
  main (handpick ++ ["duk_internal.h"; "duk_unused.h"]) unused_fs
    10000 "c" "d" "" ""
  = Done (join_lines
            (banner 10000 "c" "d" "" "" ++
             [ line_marker (mkLine "duk_internal.h" 1 d); d ])
          +:+ String newline EmptyString).
Proof.
  split_and!; [compute_done..|]. vm_compute. reflexivity.
Qed.

(** ** The order of the files *)

(** C6. The files are read, and the files that are not headers emitted,
    in the order of the sorted directory listing with the priority names
    moved to the front: the priority names in the order in which they
    are given, then all other names in lexicographic order.  (The
    priority names have to occur in the listing; the names of a listing
    are distinct.)  The list [files] that [main] loads has the names
    with the extension [.c] or [.h] in this order, and the last loop of
    [createCombined] gives to [emit] the lines of the files of this list
    that are not marked, file after file in the order of the list, so
    that a merge that returns has emitted the expansion of the root and
    then these files in this order.  For
    the listing [b.c, a.c, z.c] with the priority list [z.c] the order
    is [z.c, a.c, b.c], and the merged output of these three files (with
    a root header, which the merge needs) has the line of [z.c], then
    that of [a.c], then that of [b.c]. *)
Theorem order_filelist_spec :
  (∀ (priority listing : list string),
     NoDup listing → NoDup priority → priority ⊆ listing →
     ∃ rest,
       order_filelist priority listing = Done (priority ++ rest) ∧
       StronglySorted String.le rest ∧
       rest ≡ₚ filter (λ x, x ∉ priority) listing ∧
       ∀ fs, ∃ files,
         load priority listing fs = Done files ∧
         filename <$> files
         = filter (λ fn, splitext_ext fn ∈ [".c"; ".h"]) (priority ++ rest) ∧
         (∀ st,
            emit_remaining files st
            = for_each
                (filter (λ f, filename f ∉ processed st) files ≫= lines)
                body_line st) ∧
         (∀ fuel st st',
            combine fuel files st = (Done tt, st') →
            ∃ root evs ord,
              findFile files "duk_internal.h" = Some root ∧
              expansion fuel files root (processed st) = Some (evs, ord) ∧
              for_each
                (evs ++ (body_item <$>
                         (filter (λ f, filename f ∉ processed st') files
                          ≫= lines)))
                emit st
              = (Done tt, set_processed (processed st) st'))) ∧
  order_filelist ["z.c"] ["b.c"; "a.c"; "z.c"] = Done ["z.c"; "a.c"; "b.c"] ∧
  main_from ["z.c"] ["b.c"; "a.c"; "z.c"; "duk_internal.h"] named_fs
    10000 "c" "d" "" ""
  = Done (join_lines
            (banner 10000 "c" "d" "" "" ++
             [ line_marker (mkLine "duk_internal.h" 1 "/* duk_internal.h */");
               "/* duk_internal.h */";
               line_marker (mkLine "z.c" 1 "/* z.c */"); "/* z.c */";
               line_marker (mkLine "a.c" 1 "/* a.c */"); "/* a.c */";
               line_marker (mkLine "b.c" 1 "/* b.c */"); "/* b.c */" ])
          +:+ String newline EmptyString).
Proof.
  split; [|split; by vm_compute].
  intros priority listing Hl Hp Hsub.
  exists (filter (λ x, x ∉ priority) (merge_sort String.le listing)).
  assert (order_filelist priority listing
          = Done (priority ++
                  filter (λ x, x ∉ priority) (merge_sort String.le listing)))
    as Hord.
  { unfold order_filelist. rewrite move_all_spec.
    - rewrite reverse_involutive. do 2 f_equal.
      apply list_filter_iff. intros x. by rewrite elem_of_reverse.
    - by rewrite merge_sort_Permutation.
    - by rewrite reverse_Permutation.
    - intros x Hx. rewrite elem_of_reverse in Hx.
      rewrite merge_sort_Permutation. auto. }
  split; [done|]. split; [|split].
  - apply StronglySorted_filter, (StronglySorted_merge_sort _).
  - by rewrite merge_sort_Permutation.
  - intros fs. unfold load. rewrite Hord. simpl. eexists.
    split; [done|]. split; [|split].
    2: { intros st. apply emit_remaining_flat. }
    2: { intros fuel st st' Hrun.
         destruct (combine_events _ _ _ _ Hrun)
           as (root & evs & ord & Hroot & He & _ & Hevs).
         by exists root, evs, ord. }
    generalize (filter (λ fn, splitext_ext fn ∈ [".c"; ".h"])
                  (priority ++ filter (λ x, x ∉ priority)
                                 (merge_sort String.le listing))).
    intros l. induction l as [|fn l IH]; csimpl; [done|by f_equal].
Qed.

Lemma order_filelist_spec_witness :
  ∃ rest,
    order_filelist ["duk_b.c"] ["duk_c.c"; "duk_b.c"; "duk_a.c"]
    = Done (["duk_b.c"] ++ rest) ∧
    StronglySorted String.le rest ∧
    rest ≡ₚ filter (λ x, x ∉ ["duk_b.c"]) ["duk_c.c"; "duk_b.c"; "duk_a.c"].
Proof.
  destruct (proj1 order_filelist_spec
              ["duk_b.c"] ["duk_c.c"; "duk_b.c"; "duk_a.c"])
    as (rest & Hord & Hsorted & Hperm & _); [compute_done..|].
  exists rest. auto.
Defined.

(** ** Residual internal includes in the remaining files *)

(** What the last loop does with a line that is an internal include:
    with the line number of the cursor set, the line is replaced, in its
    place, by the comment, and the cursor moves on by one line; with the
    cursor still unset, the comment is appended and the addition to the
    line number raises. *)
Lemma body_line_residual_include (line : Line) (incname : string)
    (st : state) :
  re_intinc (data line) = Some incname →
  body_line line st
  = match (emit_state st).2 with
    | Some n =>
        (Done tt,
         mkState (res st ++ [include_removed incname])
                 ((emit_state st).1, Some (n + 1)) (processed st))
    | None =>
        (Raised TypeError,
         mkState (res st ++ [include_removed incname]) (emit_state st)
                 (processed st))
    end.
Proof. intros Hl. unfold body_line. rewrite Hl. done. Qed.

(** C8, at an input where it fails.  The root header is empty, so that
    nothing was emitted when the last loop meets the include in
    [duk_strings.c]: the line number of the cursor is still [None], and
    emitting the comment raises [TypeError]; no output is written. *)
Theorem stray_include_unset_cursor :
  main (handpick ++ ["duk_internal.h"]) stray_fs 10000 "c" "d" "" ""
  = Raised TypeError.
Proof. vm_compute. reflexivity. Qed.

(** * Further properties *)

(** ** Reading a file *)

Lemma iter_lines_nil (c : string) : iter_lines c = [] → c = EmptyString.
Proof.
  destruct c as [|a s]; [done|]. simpl. case_decide; [done|].
  by destruct (iter_lines s).
Qed.

(** A piece that the iteration over a file yields is not empty and has
    no newline before its last character. *)
Lemma iter_lines_pieces (c : string) :
  Forall (λ r, r ≠ EmptyString ∧ occurs newline (chomp r) = false)
    (iter_lines c).
Proof.
  induction c as [|a s IH]; simpl; [constructor|].
  case_decide as Ha.
  - constructor; [|done]. subst. split; [done|]. done.
  - destruct (iter_lines s) as [|l ls].
    + constructor; [|done]. split; [done|]. simpl.
      rewrite decide_False by done. simpl.
      by rewrite bool_decide_eq_false_2 by done.
    + apply Forall_cons in IH as [[Hl Hn] IH]. constructor; [|done].
      split; [done|]. destruct l as [|b l]; [done|].
      change (chomp (String a (String b l)))
        with (String a (chomp (String b l))).
      simpl occurs. by rewrite bool_decide_eq_false_2 by done.
Qed.

Lemma read_lines_lookup (fname : string) (n : Z) (raw : list string)
    (i : nat) (l : Line) :
  read_lines fname n raw !! i = Some l →
  ∃ r, raw !! i = Some r ∧ l = mkLine fname (n + Z.of_nat i + 1) (chomp r).
Proof.
  revert n i. induction raw as [|r raw IH]; intros n i; [done|].
  destruct i as [|i]; simpl.
  - intros [= <-]. exists r. split; [done|]. f_equal. lia.
  - intros (r' & Hr & ->)%IH. exists r'. split; [done|]. f_equal. lia.
Qed.

Lemma read_lines_data (fname : string) (n : Z) (raw : list string) :
  data <$> read_lines fname n raw = chomp <$> raw.
Proof.
  revert n. induction raw as [|r raw IH]; intros n; [done|].
  csimpl. by rewrite IH.
Qed.

(** X1. [read] numbers the lines of a file 1, 2, 3, ... in the order of
    the file, gives every line the name of the file, and strips no
    more than the newline that ends the line. *)
Theorem read_numbering (fname content : string) (i : nat) (l : Line) :
  lines (read fname content) !! i = Some l →
  line_filename l = fname ∧
  lineno l = Z.of_nat i + 1 ∧
  ∃ r, iter_lines content !! i = Some r ∧ data l = chomp r ∧
       (r = data l ∨ r = data l +:+ String newline EmptyString).
Proof.
  intros (r & Hr & ->)%read_lines_lookup. simpl.
  split; [done|]. split; [lia|]. exists r. split; [done|]. split; [done|].
  clear Hr. induction r as [|a r IH]; [by left|].
  destruct r as [|b r].
  - simpl. case_decide; [right; by subst|by left].
  - change (chomp (String a (String b r)))
      with (String a (chomp (String b r))).
    destruct IH as [IH|IH]; [left|right].
    + by rewrite <- IH.
    + change (String a (String b r)
              = String a (chomp (String b r) +:+ String newline EmptyString)).
      by rewrite <- IH.
Qed.

Lemma read_numbering_witness :
  ∃ r, iter_lines (text ["int a;"; "int b;"]) !! 1%nat = Some r ∧
       "int b;" = chomp r.
Proof.
  destruct (read_numbering "duk_a.h" (text ["int a;"; "int b;"]) 1
              (mkLine "duk_a.h" 2 "int b;"))
    as (_ & _ & r & Hr & Hd & _); [vm_compute; reflexivity|].
  by exists r.
Defined.

(** X2. No line that [read] returns has a newline in its text, whatever
    the file holds. *)
Theorem read_no_newline (fname content : string) :
  Forall (λ l, occurs newline (data l) = false) (lines (read fname content)).
Proof.
  apply Forall_fmap with (f := data) (P := λ d, occurs newline d = false).
  unfold read. simpl. rewrite read_lines_data. apply Forall_fmap.
  eapply Forall_impl; [apply iter_lines_pieces|]. by intros r [_ ?].
Qed.

Lemma join_lines_cons_char (a : ascii) (x : string) (l : list string) :
  join_lines (String a x :: l) = String a (join_lines (x :: l)).
Proof. by destruct l. Qed.

Lemma chomp_join_iter_lines (c : string) :
  join_lines (chomp <$> iter_lines c) = chomp c.
Proof.
  induction c as [|a s IH]; [done|]. simpl iter_lines.
  case_decide as Ha.
  - subst. destruct s as [|b s]; [done|].
    change (chomp (String newline (String b s)))
      with (String newline (chomp (String b s))).
    rewrite <- IH, fmap_cons.
    destruct (iter_lines (String b s)) as [|l ls] eqn:Hs;
      [by apply iter_lines_nil in Hs|].
    reflexivity.
  - destruct (iter_lines s) as [|l ls] eqn:Hs.
    + apply iter_lines_nil in Hs. by subst.
    + pose proof (iter_lines_pieces s) as Hp. rewrite Hs in Hp.
      apply Forall_cons in Hp as [[Hl _] _].
      destruct l as [|b l]; [done|]. destruct s as [|b' s]; [done|].
      change (chomp (String a (String b' s)))
        with (String a (chomp (String b' s))).
      rewrite <- IH, !fmap_cons.
      change (chomp (String a (String b l)))
        with (String a (chomp (String b l))).
      apply join_lines_cons_char.
Qed.

(** X3. Joining the lines that [read] returns with newlines gives the
    content of the file back, without the newline that ends it. *)
Theorem read_join_round_trip (fname content : string) :
  join_lines (data <$> lines (read fname content)) = chomp content.
Proof.
  unfold read. simpl. rewrite read_lines_data. apply chomp_join_iter_lines.
Qed.

Lemma string_app_assoc (s1 s2 s3 : string) :
  (s1 +:+ s2) +:+ s3 = s1 +:+ (s2 +:+ s3).
Proof.
  induction s1 as [|a s1 IH]; [done|].
  change (String a ((s1 +:+ s2) +:+ s3) = String a (s1 +:+ (s2 +:+ s3))).
  by rewrite IH.
Qed.

Lemma iter_lines_line (x s : string) :
  occurs newline x = false →
  iter_lines (x +:+ String newline s)
  = (x +:+ String newline EmptyString) :: iter_lines s.
Proof.
  induction x as [|a x IH]; intros Hx.
  - change (iter_lines (String newline s)
            = String newline EmptyString :: iter_lines s).
    done.
  - simpl in Hx. apply orb_false_iff in Hx as [Ha%bool_decide_eq_false Hx].
    change (iter_lines (String a (x +:+ String newline s))
            = String a (x +:+ String newline EmptyString) :: iter_lines s).
    simpl. rewrite decide_False by done. by rewrite IH.
Qed.

Lemma chomp_line (x : string) : chomp (x +:+ String newline EmptyString) = x.
Proof.
  induction x as [|a x IH]; [done|].
  change (chomp (String a (x +:+ String newline EmptyString)) = String a x).
  destruct x as [|b x].
  - change (String a (chomp (String newline EmptyString)) = String a EmptyString).
    done.
  - change (String a (chomp (String b x +:+ String newline EmptyString))
            = String a (String b x)).
    by rewrite IH.
Qed.

(** X4. Reading the merged text back, line by line as [read] does, gives
    exactly the lines that were joined, when there is at least one and
    none of them has a newline in it. *)
Theorem join_read_round_trip (fname : string) (out : list string) :
  out ≠ [] → Forall (λ x, occurs newline x = false) out →
  data <$> lines (read fname (join_lines out +:+ String newline EmptyString))
  = out.
Proof.
  intros Hne Hall. unfold read. simpl. rewrite read_lines_data.
  induction Hall as [|x out Hx Hall IH]; [done|].
  destruct out as [|y out].
  - simpl join_lines. rewrite iter_lines_line by done. csimpl.
    by rewrite chomp_line.
  - change (join_lines (x :: y :: out))
      with (x +:+ String newline (join_lines (y :: out))).
    rewrite string_app_assoc.
    change (String newline (join_lines (y :: out)) +:+ String newline EmptyString)
      with (String newline
              (join_lines (y :: out) +:+ String newline EmptyString)).
    rewrite iter_lines_line by done. rewrite fmap_cons, chomp_line.
    f_equal. by apply IH.
Qed.

Lemma join_read_round_trip_witness :
  data <$> lines (read "duktape.c"
                    (join_lines ["/*"; " */"; "int x;"]
                     +:+ String newline EmptyString))
  = ["/*"; " */"; "int x;"].
Proof. apply join_read_round_trip; [done|]. compute_done. Defined.

(** ** Looking up a file *)

(** X5. [findFile] returns nothing exactly when no file has the name,
    and otherwise the first file of the list with that name. *)
Theorem findFile_first (files : list File) (name : string) :
  (findFile files name = None ↔ name ∉ filename <$> files) ∧
  (∀ f, findFile files name = Some f →
        ∃ before after,
          files = before ++ f :: after ∧ filename f = name ∧
          name ∉ filename <$> before).
Proof.
  induction files as [|i files [IHn IHs]]; cbn [findFile].
  - split; [|done]. split; [intros _; apply not_elem_of_nil|done].
  - case_decide as Hi.
    + split.
      * split; [done|]. intros []. rewrite fmap_cons, Hi. left.
      * intros f [= <-]. exists [], files. split_and!; [done..|].
        apply not_elem_of_nil.
    + split.
      * rewrite IHn, fmap_cons, not_elem_of_cons. naive_solver.
      * intros f (before & after & -> & Hf & Hb)%IHs.
        exists (i :: before), after. split_and!; [done..|].
        rewrite fmap_cons, not_elem_of_cons. split; [congruence|done].
Qed.

Lemma findFile_first_witness :
  let files := tree twice_fs ["duk_a.h"; "duk_internal.h"; "duk_a.h"] in
  ∃ before after,
    files = before ++ read "duk_a.h" (twice_fs "duk_a.h") :: after ∧
    "duk_a.h" ∉ filename <$> before.
Proof.
  intros files.
  destruct (proj2 (findFile_first files "duk_a.h")
              (read "duk_a.h" (twice_fs "duk_a.h")))
    as (before & after & Hf & _ & Hb); [vm_compute; reflexivity|].
  by exists before, after.
Defined.

(** ** The declaration pass *)

Lemma declare_line_static (line : Line) :
  declare_line (declare_line line) = declare_line line ∧
  startswith (data (declare_line line)) "int " = false ∧
  startswith (data (declare_line line)) "void " = false ∧
  startswith (data (declare_line line)) "extern int" = false ∧
  startswith (data (declare_line line)) "extern void " = false.
Proof.
  unfold declare_line.
  destruct (startswith (data line) "int " || startswith (data line) "void ")
    eqn:H1; [done|].
  destruct (startswith (data line) "extern int"
            || startswith (data line) "extern void ") eqn:H2; [done|].
  rewrite H1, H2. apply orb_false_iff in H1 as [-> ->].
  by apply orb_false_iff in H2 as [-> ->].
Qed.

(** X6. The declaration pass is idempotent; it keeps the number of
    lines, their file names and their line numbers; and after it no line
    begins with one of the four prefixes it rewrites. *)
Theorem processDeclarations_idempotent (f : File) :
  processDeclarations (processDeclarations f) = processDeclarations f ∧
  filename (processDeclarations f) = filename f ∧
  line_filename <$> lines (processDeclarations f) = line_filename <$> lines f ∧
  lineno <$> lines (processDeclarations f) = lineno <$> lines f ∧
  Forall (λ l, startswith (data l) "int " = false ∧
               startswith (data l) "void " = false ∧
               startswith (data l) "extern int" = false ∧
               startswith (data l) "extern void " = false)
    (lines (processDeclarations f)).
Proof.
  unfold processDeclarations. simpl. split_and!.
  - f_equal. rewrite <- list_fmap_compose. apply list_fmap_ext.
    intros i l _. apply declare_line_static.
  - done.
  - rewrite <- list_fmap_compose. apply list_fmap_ext. intros i l _.
    unfold declare_line. simpl. by repeat case_match.
  - rewrite <- list_fmap_compose. apply list_fmap_ext. intros i l _.
    unfold declare_line. simpl. by repeat case_match.
  - apply Forall_fmap, Forall_forall. intros l _. apply declare_line_static.
Qed.

(** ** The banner *)

(** X7. The three numbers of the banner determine [duk_version]: minor
    and patch are between 0 and 99 and
    [duk_version = major * 10000 + minor * 100 + patch], for every
    integer (Python's division rounds down); the second line of the
    output prints them. *)
Theorem version_round_trip (duk_version : Z)
    (git_commit git_describe license_text authors_text : string) :
  let '(major, minor, patch) := version_triple duk_version in
  duk_version = major * 10000 + minor * 100 + patch ∧
  0 ≤ minor < 100 ∧ 0 ≤ patch < 100 ∧
  banner duk_version git_commit git_describe license_text authors_text !! 1%nat
  = Some (" *  Single file autogenerated distributable for Duktape "
          +:+ pretty major +:+ "." +:+ pretty minor +:+ "."
          +:+ pretty patch +:+ ".").
Proof.
  cbv beta iota delta [version_triple].
  pose proof (Z.div_mod duk_version 100 ltac:(lia)) as H1.
  pose proof (Z.div_mod (duk_version `div` 100) 100 ltac:(lia)) as H2.
  rewrite Z.div_div in H2 by lia. change (100 * 100) with 10000 in H2.
  pose proof (Z.mod_pos_bound duk_version 100 ltac:(lia)).
  pose proof (Z.mod_pos_bound (duk_version `div` 100) 100 ltac:(lia)).
  split_and!; [lia..|done].
Qed.

(** ** The two include patterns *)

Lemma lazy_until_sound (c : ascii) (k : string → bool) (s x : string) :
  lazy_until c k s = Some x →
  ∃ rest, s = x +:+ String c rest ∧ k rest = true ∧ occurs newline x = false.
Proof.
  revert x. induction s as [|a s IH]; intros x; simpl; [done|].
  destruct (bool_decide (a = c) && k s) eqn:Hhit.
  - intros [= <-]. apply andb_true_iff in Hhit as [->%bool_decide_eq_true Hk].
    by exists s.
  - destruct (decide (a = newline)) as [|Ha]; [done|].
    destruct (lazy_until c k s) as [y|]; simpl; [|done].
    intros [= <-]. destruct (IH y eq_refl) as (rest & -> & Hk & Hy).
    exists rest. split_and!; [done..|]. simpl.
    by rewrite bool_decide_eq_false_2 by done.
Qed.

Lemma lazy_until_complete (c : ascii) (k : string → bool) (x rest : string) :
  occurs c x = false → occurs newline x = false → k rest = true →
  lazy_until c k (x +:+ String c rest) = Some x.
Proof.
  intros Hc Hn Hk. induction x as [|a x IH].
  - change (lazy_until c k (String c rest) = Some EmptyString). simpl.
    by rewrite bool_decide_eq_true_2, Hk by done.
  - simpl in Hc, Hn.
    apply orb_false_iff in Hc as [Hac%bool_decide_eq_false Hc].
    apply orb_false_iff in Hn as [Han%bool_decide_eq_false Hn].
    change (lazy_until c k (String a (x +:+ String c rest))
            = Some (String a x)). simpl.
    rewrite bool_decide_eq_false_2 by done. simpl.
    rewrite decide_False by done. by rewrite IH.
Qed.

Lemma strip_prefix_app (p r : string) : strip_prefix p (p +:+ r) = Some r.
Proof.
  induction p as [|a p IH]; [by destruct r|].
  change (strip_prefix (String a p) (String a (p +:+ r)) = Some r). simpl.
  by rewrite decide_True by done.
Qed.

(** X8. What the two patterns accept: a text that [re_intinc] matches is
    [#include "name"] followed by a rest without a newline inside, the
    name it returns stands between the quotes, begins with [duk] and has
    no newline; a text that [re_extinc] matches is [#include <name>]
    followed by such a rest.  Both begin with the include marker. *)
Theorem include_patterns_sound (d n : string) :
  (re_intinc d = Some n →
   ∃ tl rest,
     n = "duk" +:+ tl ∧ d = include_quoted n +:+ rest ∧
     occurs newline n = false ∧ dotstar_eol rest = true ∧
     startswith d "#include" = true) ∧
  (re_extinc d = Some n →
   ∃ rest,
     d = "#include <" +:+ n +:+ ">" +:+ rest ∧
     occurs newline n = false ∧ dotstar_eol rest = true ∧
     startswith d "#include" = true).
Proof.
  split.
  - unfold re_intinc.
    destruct (strip_prefix _ d) as [r|] eqn:Hr; simpl; [|done].
    apply strip_prefix_Some in Hr.
    destruct (lazy_until dquote dotstar_eol r) as [tl|] eqn:Htl; simpl; [|done].
    intros [= <-]. apply lazy_until_sound in Htl as (rest & -> & Hk & Hn).
    exists tl, rest. subst d. split_and!; [done| |done..].
    unfold include_quoted. rewrite !string_app_assoc. done.
  - unfold re_extinc.
    destruct (strip_prefix _ d) as [r|] eqn:Hr; simpl; [|done].
    apply strip_prefix_Some in Hr. intros Hn.
    apply lazy_until_sound in Hn as (rest & -> & Hk & Hn).
    exists rest. subst d. split_and!; done.
Qed.

Lemma include_patterns_sound_witness :
  ∃ tl rest,
    "duk_a.h" = "duk" +:+ tl ∧
    include_quoted "duk_a.h" +:+ " /* a */"
    = include_quoted "duk_a.h" +:+ rest.
Proof.
  destruct (proj1 (include_patterns_sound
                     (include_quoted "duk_a.h" +:+ " /* a */") "duk_a.h"))
    as (tl & rest & H1 & H2 & _); [vm_compute; reflexivity|].
  by exists tl, rest.
Defined.

(** X9. What the two patterns return: for a name that begins with [duk]
    and has no quote and no newline, [re_intinc] returns the name from
    [#include "name"], whatever follows on the line; for a name without
    [>] and without newline, [re_extinc] returns the name from
    [#include <name>].  A quoted name that does not begin with [duk] is
    not matched. *)
Theorem include_patterns_round_trip (tl rest : string) :
  dotstar_eol rest = true → occurs newline tl = false →
  (occurs dquote tl = false →
   re_intinc (include_quoted ("duk" +:+ tl) +:+ rest) = Some ("duk" +:+ tl)) ∧
  (occurs ">"%char tl = false →
   re_extinc ("#include <" +:+ tl +:+ ">" +:+ rest) = Some tl) ∧
  (strip_prefix "duk" tl = None →
   re_intinc (include_quoted tl +:+ rest) = None).
Proof.
  intros Hrest Hn. split_and!.
  - intros Hq. unfold re_intinc, include_quoted.
    assert (("#include " +:+ q +:+ ("duk" +:+ tl) +:+ q) +:+ rest
            = ("#include " +:+ q +:+ "duk") +:+ (tl +:+ String dquote rest))
      as -> by (rewrite !string_app_assoc; done).
    rewrite strip_prefix_app. simpl.
    by rewrite lazy_until_complete.
  - intros Hgt. unfold re_extinc.
    rewrite strip_prefix_app. simpl.
    by apply lazy_until_complete.
  - intros Hduk. unfold re_intinc, include_quoted.
    assert (strip_prefix ("#include " +:+ q +:+ "duk")
              (("#include " +:+ q +:+ tl +:+ q) +:+ rest) = None) as ->; [|done].
    change (strip_prefix ("#include " +:+ q)
              (("#include " +:+ q) +:+ (tl +:+ q) +:+ rest)) with
      (strip_prefix "duk" ((tl +:+ q) +:+ rest)).
    destruct tl as [|a [|b [|c tl]]]; simpl in *; repeat case_decide; done.
Qed.

Lemma include_patterns_round_trip_witness :
  re_intinc (include_quoted ("duk" +:+ "_a.h") +:+ " /* a */")
  = Some ("duk" +:+ "_a.h") ∧
  re_extinc ("#include <" +:+ "_a.h" +:+ ">" +:+ " /* a */") = Some "_a.h".
Proof.
  destruct (include_patterns_round_trip "_a.h" " /* a */")
    as (H1 & H2 & _); [done..|].
  split; [by apply H1|by apply H2].
Defined.

(** ** The include classifier, file by file *)

Lemma re_extinc_startswith (d n : string) :
  re_extinc d = Some n → startswith d "#include" = true.
Proof. intros [r ->]%re_extinc_prefix. done. Qed.

Lemma re_intinc_startswith (d n : string) :
  re_intinc d = Some n → startswith d "#include" = true.
Proof.
  unfold re_intinc. destruct (strip_prefix _ d) as [r|] eqn:Hr; [|done].
  apply strip_prefix_Some in Hr. by subst.
Qed.

Lemma processIncludes_lines_Done (ls : list Line) (extinc intinc : list string)
    (r : list string * list string) :
  processIncludes_lines ls extinc intinc = Done r →
  r = (extinc ++ omap (re_extinc ∘ data) ls,
       intinc ++ omap (re_intinc ∘ data) ls) ∧
  Forall (λ l, ¬ unparsable (data l)) ls.
Proof.
  revert extinc intinc. induction ls as [|l ls IH]; intros e i; simpl.
  - intros [= <-]. by rewrite !app_nil_r.
  - destruct (startswith (data l) "#include") eqn:Hs; simpl.
    + destruct (re_extinc (data l)) as [n|] eqn:He.
      * intros [-> Hall]%IH. rewrite <- !app_assoc.
        rewrite (re_extinc_not_intinc (data l)) by (by rewrite He).
        split; [done|]. constructor; [|done]. intros (_ & ? & _). congruence.
      * destruct (re_intinc (data l)) as [n|] eqn:Hi; [|done].
        intros [-> Hall]%IH. rewrite <- !app_assoc.
        split; [done|]. constructor; [|done]. intros (_ & _ & ?). congruence.
    + destruct (re_extinc (data l)) as [n|] eqn:He.
      { apply re_extinc_startswith in He. congruence. }
      destruct (re_intinc (data l)) as [n|] eqn:Hi.
      { apply re_intinc_startswith in Hi. congruence. }
      intros [-> Hall]%IH. split; [done|].
      constructor; [|done]. intros (? & _). congruence.
Qed.

Lemma processIncludes_lines_parsable (ls : list Line)
    (extinc intinc : list string) :
  Forall (λ l, ¬ unparsable (data l)) ls →
  ∃ r, processIncludes_lines ls extinc intinc = Done r.
Proof.
  intros Hall. revert extinc intinc.
  induction Hall as [|l ls Hl Hall IH]; intros e i; simpl; [by eexists|].
  destruct (startswith (data l) "#include") eqn:Hs; simpl; [|apply IH].
  destruct (re_extinc (data l)) eqn:He; [apply IH|].
  destruct (re_intinc (data l)) eqn:Hi; [apply IH|].
  by destruct Hl.
Qed.

(** X10. [processIncludes] returns, in the order of the lines, the names
    of the external includes of the file and the names of its internal
    includes, when no line is an include that it cannot parse; it raises
    "cannot parse include directive" when there is such a line. *)
Theorem processIncludes_spec (f : File) :
  (Forall (λ l, ¬ unparsable (data l)) (lines f) →
   processIncludes f
   = Done (omap (re_extinc ∘ data) (lines f),
           omap (re_intinc ∘ data) (lines f))) ∧
  (Exists (λ l, unparsable (data l)) (lines f) →
   processIncludes f = Raised parse_error).
Proof.
  unfold processIncludes. split.
  - intros Hall.
    destruct (processIncludes_lines_parsable (lines f) [] [] Hall) as [r Hr].
    rewrite Hr. by apply processIncludes_lines_Done in Hr as [-> _].
  - intros (l & Hl & Hu)%Exists_exists.
    by apply (processIncludes_lines_raises _ _ _ l).
Qed.

Lemma processIncludes_spec_witness :
  let f := read "duk_a.h"
             (text ["#include <stdio.h>"; include_quoted "duk_b.h"; "int a;"]) in
  processIncludes f = Done (["stdio.h"], ["duk_b.h"]).
Proof.
  intros f. rewrite (proj1 (processIncludes_spec f)); [done|].
  repeat constructor; intros (H1 & H2 & H3); vm_compute in H1, H2, H3;
    congruence.
Defined.

Lemma add_new_spec (acc new : list string) :
  (NoDup acc → NoDup (add_new acc new)) ∧
  (∀ n, n ∈ add_new acc new ↔ n ∈ acc ∨ n ∈ new).
Proof.
  revert acc. induction new as [|x new IH]; intros acc; simpl.
  - split; [done|]. intros n. rewrite elem_of_nil. tauto.
  - case_decide as Hx.
    + destruct (IH acc) as [IH1 IH2]. split; [done|].
      intros n. rewrite IH2, elem_of_cons. split; [tauto|].
      intros [?|[->|?]]; tauto.
    + destruct (IH (acc ++ [x])) as [IH1 IH2]. split.
      * intros Hnd. apply IH1. apply NoDup_app. split_and!; [done| |].
        -- intros y Hy ->%list_elem_of_singleton. done.
        -- apply NoDup_singleton.
      * intros n. rewrite IH2, elem_of_app, list_elem_of_singleton, elem_of_cons.
        tauto.
Qed.

Lemma process_all_Done (files : list File) (e0 i0 e i : list string) :
  process_all files e0 i0 = Done (e, i) →
  (NoDup e0 → NoDup e) ∧ (NoDup i0 → NoDup i) ∧
  (∀ n, n ∈ e ↔ n ∈ e0 ∨
        ∃ f l, f ∈ files ∧ l ∈ lines f ∧ re_extinc (data l) = Some n) ∧
  (∀ n, n ∈ i ↔ n ∈ i0 ∨
        ∃ f l, f ∈ files ∧ l ∈ lines f ∧ re_intinc (data l) = Some n).
Proof.
  revert e0 i0. induction files as [|f files IH]; intros e0 i0; simpl.
  - intros [= <- <-]. split_and!; [done..| |].
    + intros n. split; [by left|]. intros [?|(f & l & []%elem_of_nil & _)]. done.
    + intros n. split; [by left|]. intros [?|(f & l & []%elem_of_nil & _)]. done.
  - unfold processIncludes.
    destruct (processIncludes_lines (lines f) [] []) as [[e1 i1]| |] eqn:Hf;
      simpl; [|done..].
    apply processIncludes_lines_Done in Hf as [[= -> ->] _]. simpl.
    intros (He & Hi & Hine & Hini)%IH.
    destruct (add_new_spec e0 (omap (re_extinc ∘ data) (lines f))) as [He1 He2].
    destruct (add_new_spec i0 (omap (re_intinc ∘ data) (lines f))) as [Hi1 Hi2].
    split_and!; [auto..| |].
    + intros n. rewrite Hine, He2, list_elem_of_omap. split.
      * intros [[?|(l & Hl & Hn)]|(f' & l & Hf' & Hl)]; [by left|right..].
        -- exists f, l. split_and!; [left|done..].
        -- exists f', l. split; [by right|done].
      * intros [?|(f' & l & [->|Hf']%elem_of_cons & Hl & Hn)];
          [by left; left| |].
        -- left; right. by exists l.
        -- right. by exists f', l.
    + intros n. rewrite Hini, Hi2, list_elem_of_omap. split.
      * intros [[?|(l & Hl & Hn)]|(f' & l & Hf' & Hl)]; [by left|right..].
        -- exists f, l. split_and!; [left|done..].
        -- exists f', l. split; [by right|done].
      * intros [?|(f' & l & [->|Hf']%elem_of_cons & Hl & Hn)];
          [by left; left| |].
        -- left; right. by exists l.
        -- right. by exists f', l.
Qed.

(** X11. When the classifier has gone through all files, the two lists
    that [main] accumulated have no duplicates and hold exactly the
    names of the external includes and of the internal includes that
    occur in the files. *)
Theorem process_all_spec (files : list File) (extinc intinc : list string) :
  process_all files [] [] = Done (extinc, intinc) →
  NoDup extinc ∧ NoDup intinc ∧
  (∀ n, n ∈ extinc ↔
        ∃ f l, f ∈ files ∧ l ∈ lines f ∧ re_extinc (data l) = Some n) ∧
  (∀ n, n ∈ intinc ↔
        ∃ f l, f ∈ files ∧ l ∈ lines f ∧ re_intinc (data l) = Some n).
Proof.
  intros (He & Hi & Hine & Hini)%process_all_Done.
  split_and!; [by apply He, NoDup_nil|by apply Hi, NoDup_nil| |].
  - intros n. rewrite Hine, elem_of_nil. tauto.
  - intros n. rewrite Hini, elem_of_nil. tauto.
Qed.

Lemma process_all_spec_witness :
  let files := tree unused_fs ["duk_internal.h"; "duk_unused.h"] in
  NoDup ["stdio.h"] ∧
  ∀ n, n ∈ ["stdio.h"] ↔
       ∃ f l, f ∈ files ∧ l ∈ lines f ∧ re_extinc (data l) = Some n.
Proof.
  intros files.
  destruct (process_all_spec files ["stdio.h"] []) as (H1 & _ & H3 & _);
    [vm_compute; reflexivity|]. done.
Defined.

(** ** Loading the files *)

Lemma move_to_front_Done (filelist : list string) (fn : string) :
  fn ∈ filelist →
  ∃ fl, move_to_front filelist fn = Done fl ∧ fl ≡ₚ filelist.
Proof.
  intros Hin. unfold move_to_front.
  destruct (index filelist fn) as [idx|] eqn:Hi;
    [|by apply index_None in Hi].
  destruct (index_Some _ _ _ Hi) as [Hl _].
  rewrite (list_lookup_total_correct _ _ _ Hl).
  eexists; split; [done|]. symmetry. by apply delete_Permutation.
Qed.

Lemma move_all_total (names filelist : list string) :
  (names ⊆ filelist →
   ∃ fl, move_all filelist names = Done fl ∧ fl ≡ₚ filelist) ∧
  (¬ names ⊆ filelist → move_all filelist names = Raised ValueError).
Proof.
  revert filelist. induction names as [|fn names IH]; intros fl; simpl.
  - split; [by eexists|]. intros []. apply list_subseteq_nil.
  - destruct (decide (fn ∈ fl)) as [Hin|Hout].
    + destruct (move_to_front_Done fl fn Hin) as (fl1 & -> & Hp). simpl.
      destruct (IH fl1) as [IH1 IH2]. split.
      * intros Hsub. destruct IH1 as (fl2 & -> & Hp2).
        { intros x Hx. rewrite Hp. apply Hsub. by right. }
        exists fl2. split; [done|]. by rewrite Hp2.
      * intros Hsub. apply IH2. intros Hsub'. apply Hsub.
        intros x [->|Hx]%elem_of_cons; [done|]. rewrite <- Hp. by apply Hsub'.
    + rewrite move_to_front_missing by done. simpl. split; [|done].
      intros Hsub. destruct Hout. apply Hsub. left.
Qed.

(** X12. [main] reads the files when every priority name is in the
    directory listing, and then it reads each entry with the extension
    [.c] or [.h] exactly once and no other entry; when a priority name
    is missing, [filelist.index] raises [ValueError] and nothing is
    read. *)
Theorem load_spec (priority listing : list string) (fs : string → string) :
  (priority ⊆ listing →
   ∃ files,
     load priority listing fs = Done files ∧
     files ≡ₚ (λ fn, read fn (fs fn)) <$> filter is_source listing) ∧
  (¬ priority ⊆ listing → load priority listing fs = Raised ValueError).
Proof.
  unfold load, order_filelist.
  destruct (move_all_total (reverse priority) (merge_sort String.le listing))
    as [Hyes Hno].
  split.
  - intros Hsub. destruct Hyes as (fl & -> & Hp).
    { intros x Hx. rewrite elem_of_reverse in Hx.
      rewrite merge_sort_Permutation. by apply Hsub. }
    simpl. eexists; split; [done|].
    rewrite merge_sort_Permutation in Hp. by rewrite Hp.
  - intros Hsub. rewrite Hno; [done|]. intros Hsub'. apply Hsub.
    intros x Hx. rewrite <- (merge_sort_Permutation String.le listing).
    apply Hsub'. by rewrite elem_of_reverse.
Qed.

Lemma load_spec_witness :
  (∃ files,
     load ["z.c"] ["b.c"; "README"; "z.c"] (λ _, EmptyString) = Done files ∧
     files ≡ₚ (λ fn, read fn EmptyString)
              <$> filter is_source ["b.c"; "README"; "z.c"]) ∧
  load ["z.c"] ["b.c"; "README"] (λ _, EmptyString) = Raised ValueError.
Proof.
  split.
  - apply (proj1 (load_spec ["z.c"] ["b.c"; "README"; "z.c"]
                    (λ _, EmptyString))). compute_done.
  - apply (proj2 (load_spec ["z.c"] ["b.c"; "README"] (λ _, EmptyString))).
    compute_done.
Defined.

(** ** The output buffer only grows *)

Lemma grows_refl (st : state) : grows st st.
Proof. exists []. by rewrite app_nil_r. Qed.

Lemma grows_trans (st1 st2 st3 : state) :
  grows st1 st2 → grows st2 st3 → grows st1 st3.
Proof.
  intros [m1 H1] [m2 H2]. exists (m1 ++ m2). by rewrite H2, H1, app_assoc.
Qed.

Lemma emit_grows (i : item) (st : state) : grows st (emit i st).2.
Proof.
  destruct i as [l|s]; simpl.
  - case_decide; [exists [line_marker l; data l]|by exists [data l]].
    simpl. by rewrite <- app_assoc.
  - destruct (emit_state st).2; by exists [s].
Qed.

Lemma for_each_grows {A} (l : list A) (body : A → M unit) (st : state) :
  (∀ x st, grows st (body x st).2) → grows st (for_each l body st).2.
Proof.
  intros Hb. revert st. induction l as [|x l IH]; intros st; simpl.
  - apply grows_refl.
  - unfold bind. specialize (Hb x st).
    destruct (body x st) as [[[]| |] st1]; simpl in *; [|done..].
    eapply grows_trans; [done|apply IH].
Qed.

Lemma processHeader_grows (fuel : nat) (files : list File) (f : File)
    (st : state) :
  grows st (processHeader fuel files f st).2.
Proof.
  revert f st. induction fuel as [|n IH]; intros f st; simpl;
    [apply grows_refl|].
  apply for_each_grows. intros l st1. unfold header_line.
  destruct (re_intinc _) as [incname|]; [|apply emit_grows].
  case_decide; [apply emit_grows|].
  destruct (findFile _ _) as [f_inc|]; [|apply grows_refl].
  case_decide; [apply emit_grows|].
  unfold bind, mark_processed. eapply grows_trans; [|apply IH].
  exists []. simpl. by rewrite app_nil_r.
Qed.

Lemma combine_grows (fuel : nat) (files : list File) (st : state) :
  grows st (combine fuel files st).2.
Proof.
  unfold combine. destruct (findFile _ _) as [root|]; [|apply grows_refl].
  unfold bind.
  pose proof (processHeader_grows fuel files root st) as H1.
  destruct (processHeader fuel files root st) as [[[]| |] st1];
    simpl in *; [|done..].
  rewrite mark_headers_run.
  eapply grows_trans; [exact H1|]. rewrite emit_remaining_flat.
  eapply grows_trans; [|apply for_each_grows].
  - exists []. simpl. by rewrite app_nil_r.
  - intros l s. unfold body_line. destruct (re_intinc _); apply emit_grows.
Qed.

(** X13. Nothing that was appended to the output is removed or changed
    afterwards: the output of [createCombined] is the banner, with the
    license and the authors text, followed by what the expansion and
    the last loop emitted, and it ends with a newline. *)
Theorem createCombined_keeps_banner (files : list File)
    (extinc intinc : list string) (duk_version : Z)
    (git_commit git_describe license_text authors_text final : string) :
  createCombined files extinc intinc duk_version git_commit git_describe
    license_text authors_text = Done final →
  ∃ body,
    final
    = join_lines
        (banner duk_version git_commit git_describe license_text authors_text
         ++ body)
      +:+ String newline EmptyString.
Proof.
  unfold createCombined.
  pose proof (combine_grows (S (length files)) files
    (mkState (banner duk_version git_commit git_describe license_text
                authors_text) (None, None) ∅)) as [body Hb].
  destruct (combine _ _ _) as [[[]| |] st1]; [|done..].
  intros [= <-]. exists body. simpl in Hb. by rewrite Hb.
Qed.

Lemma createCombined_keeps_banner_witness :
  ∃ body,
    join_lines (banner 10000 "c" "d" "" "" ++
                [line_marker (mkLine "duk_internal.h" 1 "int r;"); "int r;"])
    +:+ String newline EmptyString
    = join_lines (banner 10000 "c" "d" "" "" ++ body)
      +:+ String newline EmptyString.
Proof.
  apply (createCombined_keeps_banner
           (tree (λ _, text ["int r;"]) ["duk_internal.h"]) [] []).
  vm_compute. reflexivity.
Defined.

(** ** The root header has to be there *)

Lemma load_names (priority listing : list string) (fs : string → string)
    (files : list File) (f : File) :
  load priority listing fs = Done files → f ∈ files → filename f ∈ listing.
Proof.
  unfold load, order_filelist.
  destruct (move_all_outcome (reverse priority) (merge_sort String.le listing))
    as [(fl & -> & Hp)| ->]; [|done].
  simpl. intros [= <-] (fn & -> & Hfn)%list_elem_of_fmap. simpl.
  apply list_elem_of_filter in Hfn as [_ Hfn].
  by rewrite Hp, merge_sort_Permutation in Hfn.
Qed.

Lemma findFile_absent (files : list File) (name : string) :
  (∀ f, f ∈ files → filename f ≠ name) → findFile files name = None.
Proof.
  intros Hall. destruct (findFile files name) as [f|] eqn:Hf; [|done].
  apply findFile_Some in Hf as [Hn Hin]. by destruct (Hall f Hin).
Qed.

Lemma process_all_outcome (files : list File) (extinc intinc : list string) :
  (∃ r, process_all files extinc intinc = Done r) ∨
  process_all files extinc intinc = Raised parse_error.
Proof.
  revert extinc intinc. induction files as [|f files IH]; intros e i; simpl.
  - left. by eexists.
  - unfold processIncludes.
    destruct (processIncludes_lines_outcome (lines f) [] [])
      as [[[e1 i1] ->]| ->]; simpl; [apply IH|by right].
Qed.

(** X14. Without a file named [duk_internal.h] in the directory no
    output is written: when the files were read and classified,
    [createCombined] fails its assertion on the root header. *)
Theorem missing_root_aborts (priority listing : list string)
    (fs : string → string) (duk_version : Z)
    (git_commit git_describe license_text authors_text : string) :
  "duk_internal.h" ∉ listing →
  let run := main_from priority listing fs duk_version git_commit
               git_describe license_text authors_text in
  (∀ final, run ≠ Done final) ∧
  (∀ files r, load priority listing fs = Done files →
              process_all files [] [] = Done r →
              run = Raised AssertionError).
Proof.
  intros Hroot run. subst run. unfold main_from.
  destruct (load priority listing fs) as [files| |] eqn:Hload; simpl;
    [|split; [done|intros ? ? [=]]..].
  assert (findFile files "duk_internal.h" = None) as Hfind.
  { apply findFile_absent. intros f Hf Hname.
    apply (load_names _ _ _ _ _ Hload) in Hf. congruence. }
  assert (∀ e i, createCombined files e i duk_version git_commit git_describe
                   license_text authors_text = Raised AssertionError) as Hcc.
  { intros e i. unfold createCombined, combine. by rewrite Hfind. }
  destruct (process_all_outcome files [] []) as [[[e i] Hpa]|Hpa];
    rewrite Hpa; simpl.
  - rewrite Hcc. split; [done|]. done.
  - split; [done|]. intros files0 r [= <-]. by rewrite Hpa.
Qed.

Lemma missing_root_aborts_witness :
  main_from [] ["duk_a.h"; "a.c"] (λ _, text ["int x;"]) 10000 "c" "d" "" ""
  = Raised AssertionError.
Proof.
  eapply (proj2 (missing_root_aborts [] ["duk_a.h"; "a.c"]
                   (λ _, text ["int x;"]) 10000 "c" "d" "" "" _)).
  - vm_compute. reflexivity.
  - vm_compute. reflexivity.
  Unshelve. compute_done.
Defined.

(** ** The whole of what is emitted *)

(** X15. When the merge returns, what was given to [emit] is the trace
    of the expansion of the root followed, file by file in the order of
    [files], by the lines of the files that are left; a file is left
    when it was not flattened and its extension is not [.h], so that no
    header is emitted by the last loop. *)
Theorem combine_trace (fuel : nat) (files : list File) (st st' : state) :
  combine fuel files st = (Done tt, st') →
  ∃ root evs ord,
    findFile files "duk_internal.h" = Some root ∧
    expansion fuel files root (processed st) = Some (evs, ord) ∧
    processed st' = header_names files ∪ (list_to_set ord ∪ processed st) ∧
    let remaining := filter (λ f, filename f ∉ processed st') files in
    for_each (evs ++ (body_item <$> (remaining ≫= lines))) emit st
    = (Done tt, set_processed (processed st) st') ∧
    Forall (λ f, splitext_ext (filename f) ≠ ".h" ∧ filename f ∉ ord)
      remaining.
Proof.
  unfold combine.
  destruct (findFile files "duk_internal.h") as [root|]; [|done].
  unfold bind at 1.
  destruct (processHeader fuel files root st) as [[[]| |] st1] eqn:Hh;
    [|done..].
  unfold bind. rewrite mark_headers_run.
  rewrite emit_remaining_flat, body_lines_items, processed_set_processed.
  intros Hbody.
  destruct (processHeader_expansion _ _ _ _ _ Hh)
    as (evs & ord & He & Hevs & HP).
  assert (processed st'
          = header_names files ∪ (list_to_set ord ∪ processed st)) as HP'.
  { rewrite <- HP. apply (f_equal (λ r, processed r.2)) in Hbody.
    cbn [snd] in Hbody. rewrite <- Hbody.
    by rewrite emit_all_processed, processed_set_processed. }
  exists root, evs, ord. split_and!; [done..| |].
  - rewrite for_each_app. unfold bind. rewrite Hevs.
    rewrite HP', <- HP.
    rewrite emit_all_set_processed in Hbody |- *.
    destruct (for_each _ emit st1) as [o st2]. simpl in *.
    injection Hbody as -> <-. done.
  - apply Forall_forall. intros f [Hout Hf]%list_elem_of_filter.
    rewrite HP' in Hout. split.
    + intros Hext. apply Hout, elem_of_union. left. unfold header_names.
      apply elem_of_list_to_set, list_elem_of_fmap. exists f. split; [done|].
      by apply list_elem_of_filter.
    + intros Hord. apply Hout, elem_of_union. right.
      apply elem_of_union. left. by apply elem_of_list_to_set.
Qed.

Lemma combine_trace_witness :
  let files := tree diamond_fs ["a.c"; "duk_b.h"; "duk_c.h"; "duk_internal.h"] in
  ∃ root evs ord,
    findFile files "duk_internal.h" = Some root ∧
    expansion 5 files root ∅ = Some (evs, ord).
Proof.
  intros files.
  destruct (combine_trace 5 files st_empty (combine 5 files st_empty).2)
    as (root & evs & ord & H1 & H2 & _); [vm_compute; reflexivity|].
  by exists root, evs, ord.
Defined.

(** ** Emitting a file as a whole *)

Lemma emit_lines_consecutive (fname : string) (n : Z) (raw : list string)
    (st : state) :
  emit_state st = (Some fname, Some (n + 1)) →
  emit_lines (read_lines fname n raw) st
  = mkState (res st ++ (chomp <$> raw))
            (Some fname, Some (n + 1 + Z.of_nat (length raw)))
            (processed st).
Proof.
  revert n st. induction raw as [|r raw IH]; intros n st Hst.
  - unfold emit_lines. simpl. destruct st as [rs es P]. simpl in *. subst.
    rewrite app_nil_r. do 3 f_equal. lia.
  - change (read_lines fname n (r :: raw))
      with ([mkLine fname (n + 1) (chomp r)] ++ read_lines fname (n + 1) raw).
    rewrite emit_lines_app.
    assert (emit_lines [mkLine fname (n + 1) (chomp r)] st
            = mkState (res st ++ [chomp r]) (Some fname, Some (n + 1 + 1))
                (processed st)) as ->.
    { unfold emit_lines. simpl. unfold bind. simpl. rewrite Hst. simpl.
      by rewrite decide_False by (intros [?|?]; congruence). }
    rewrite IH by done. simpl. rewrite <- app_assoc. simpl.
    do 3 f_equal. lia.
Qed.

(** X16. A file that is emitted as a whole, line after line as [read]
    returned them, gets one marker, before its first line, and none
    further down (and no marker at all when the cursor already stands at
    its first line); afterwards the cursor stands behind its last
    line. *)
Theorem emit_file_one_marker (fname content : string) (st : state) :
  content ≠ EmptyString →
  let st' := emit_lines (lines (read fname content)) st in
  res st'
  = res st
    ++ (if decide (emit_state st = (Some fname, Some 1)) then []
        else [line_marker (mkLine fname 1 EmptyString)])
    ++ (data <$> lines (read fname content)) ∧
  emit_state st'
  = (Some fname, Some (Z.of_nat (length (lines (read fname content))) + 1)).
Proof.
  intros Hne st'. subst st'. unfold read. cbn [lines].
  destruct (iter_lines content) as [|r raw] eqn:Hraw;
    [by apply iter_lines_nil in Hraw|].
  change (read_lines fname 0 (r :: raw))
    with ([mkLine fname 1 (chomp r)] ++ read_lines fname 1 raw).
  rewrite emit_lines_app.
  set (st1 := emit_lines [mkLine fname 1 (chomp r)] st).
  assert (emit_state st1 = (Some fname, Some (1 + 1)) ∧
          processed st1 = processed st ∧
          res st1 = res st
                    ++ (if decide (emit_state st = (Some fname, Some 1)) then []
                        else [line_marker (mkLine fname 1 EmptyString)])
                    ++ [chomp r]) as (Hc & HP & Hr).
  { unfold st1, emit_lines. simpl. unfold bind. simpl. split_and!; [done..|].
    destruct (emit_state st) as [fn ln] eqn:Hst. simpl.
    destruct (decide ((fn, ln) = (Some fname, Some 1))) as [[= -> ->]|Hd].
    - by rewrite decide_False by (intros [?|?]; congruence).
    - rewrite decide_True; [by rewrite <- app_assoc|].
      destruct (decide (Some fname = fn)) as [<-|]; [|by left].
      right. intros <-. done. }
  rewrite (emit_lines_consecutive fname 1 raw st1) by done.
  cbn [res emit_state]. split.
  - rewrite Hr, fmap_app, read_lines_data, <- !app_assoc. done.
  - assert (length (read_lines fname 1 raw) = length raw) as Hlen.
    { rewrite <- (length_fmap data), read_lines_data. by rewrite length_fmap. }
    rewrite length_app, Hlen. simpl length. do 2 f_equal. lia.
Qed.

Lemma emit_file_one_marker_witness :
  res (emit_lines (lines (read "a.c" (text ["int a;"; "int b;"]))) st_empty)
  = [line_marker (mkLine "a.c" 1 EmptyString); "int a;"; "int b;"].
Proof.
  destruct (emit_file_one_marker "a.c" (text ["int a;"; "int b;"]) st_empty)
    as [H _]; [done|]. rewrite H. vm_compute. reflexivity.
Defined.

(** ** Where [TypeError] can come from *)

Lemma typeerror_first_emit_line (l : Line) : typeerror_first (emit (ILine l)).
Proof.
  intros st. unfold cursor_set. simpl. split.
  - intros _. split; [by eexists|done].
  - intros _. split; [|done]. intros _ []. by eexists.
Qed.

Lemma typeerror_first_emit_comment (s : string) :
  comment s → typeerror_first (emit (IStr s)).
Proof.
  intros Hs st. unfold cursor_set. simpl.
  destruct (emit_state st).2 as [n|] eqn:Hn; simpl.
  - split; [|by intros []]. intros _. split; [by eexists|done].
  - split; [by intros [? [=]]|]. intros _. split; [done|].
    intros _. by exists s.
Qed.

Lemma typeerror_first_bind (m k : M unit) :
  typeerror_first m → typeerror_first k →
  typeerror_first (m ;;; k).
Proof.
  intros Hm Hk st. unfold bind. destruct (Hm st) as [Hm1 Hm2].
  destruct (m st) as [[[]| |] st1] eqn:Hst; simpl in *.
  - destruct (Hk st1) as [Hk1 Hk2]. split.
    + intros Hset. apply Hk1. by apply Hm1.
    + intros Hunset. destruct (Hm2 Hunset) as [Hm2a _].
      destruct (decide (cursor_set st1)) as [Hs1|Hs1].
      * destruct (Hk1 Hs1) as [Hk1a Hk1b]. split; [|done].
        intros _ Hfin. by destruct Hfin.
      * rewrite <- (Hm2a eq_refl Hs1). by apply Hk2.
  - split; [done|]. intros Hunset. split; [done|]. by apply Hm2.
  - split; [done|]. intros Hunset. split; done.
Qed.

Lemma typeerror_first_for_each {A} (l : list A) (body : A → M unit) :
  (∀ x, typeerror_first (body x)) → typeerror_first (for_each l body).
Proof.
  intros Hb. induction l as [|x l IH]; simpl.
  - intros st. unfold ret. simpl. split; [done|]. intros _. split; done.
  - by apply typeerror_first_bind.
Qed.

Lemma typeerror_first_quiet (m : M unit) :
  (∀ st, emit_state (m st).2 = emit_state st ∧ res (m st).2 = res st ∧
         (m st).1 ≠ Raised TypeError) →
  typeerror_first m.
Proof.
  intros Hm st. destruct (Hm st) as (Hc & Hr & Ho). unfold cursor_set.
  rewrite Hc. split; [done|]. intros _. split; done.
Qed.

Lemma typeerror_first_processHeader (fuel : nat) (files : list File)
    (f : File) :
  typeerror_first (processHeader fuel files f).
Proof.
  revert f. induction fuel as [|n IH]; intros f; simpl.
  - by apply typeerror_first_quiet.
  - apply typeerror_first_for_each. intros l. unfold header_line.
    destruct (re_intinc _) as [incname|]; [|apply typeerror_first_emit_line].
    case_decide; [apply typeerror_first_emit_line|].
    destruct (findFile _ _) as [f_inc|]; [|by apply typeerror_first_quiet].
    intros st. case_decide.
    + apply (typeerror_first_emit_comment
               (already_included (filename f_inc))). eexists. by left.
    + apply (typeerror_first_bind (mark_processed (filename f_inc))
               (processHeader n files f_inc)); [|apply IH].
      by apply typeerror_first_quiet.
Qed.

Lemma typeerror_first_combine (fuel : nat) (files : list File) :
  typeerror_first (combine fuel files).
Proof.
  unfold combine. destruct (findFile _ _) as [root|];
    [|by apply typeerror_first_quiet].
  apply typeerror_first_bind; [apply typeerror_first_processHeader|].
  apply typeerror_first_bind.
  - apply typeerror_first_for_each. intros f. case_decide;
      by apply typeerror_first_quiet.
  - apply typeerror_first_for_each. intros f st. case_decide.
    + by apply (typeerror_first_quiet (λ st, (Done tt, st))).
    + apply (typeerror_first_for_each (lines f) body_line).
      intros l. unfold body_line.
      destruct (re_intinc _) as [n|]; [|apply typeerror_first_emit_line].
      apply typeerror_first_emit_comment. eexists. by right.
Qed.

(** X17. The merge raises [TypeError] only before the first [Line] is
    emitted: never when the cursor has a line number, and otherwise only
    on the very first thing it emits, a placeholder or include-removed
    comment.  Once a [Line] was emitted no comment can raise any more. *)
Theorem typeerror_only_at_first_emit (fuel : nat) (files : list File)
    (st : state) :
  let run := combine fuel files st in
  (cursor_set st → run.1 ≠ Raised TypeError) ∧
  (run.1 = Raised TypeError →
   emit_state st = ((emit_state st).1, None) ∧
   ∃ s, comment s ∧ res run.2 = res st ++ [s]).
Proof.
  intros run. subst run.
  destruct (typeerror_first_combine fuel files st) as [H1 H2]. split.
  - intros Hset. by apply H1.
  - intros Hrun. destruct (decide (cursor_set st)) as [Hset|Hunset].
    + by destruct (H1 Hset).
    + split; [|by apply H2].
      unfold cursor_set in Hunset. destruct (emit_state st) as [fn [n|]];
        [|done]. destruct Hunset. by eexists.
Qed.

Lemma typeerror_only_at_first_emit_witness :
  let files := tree cyclic_fs ["duk_a.h"; "duk_internal.h"] in
  let st := mkState ["int z;"] (Some "z.h", Some 2) ∅ in
  (combine 3 files st).1 ≠ Raised TypeError.
Proof.
  intros files st.
  apply (proj1 (typeerror_only_at_first_emit 3 files st)). by eexists.
Defined.

(** ** Flattened headers in the whole merge *)





